(** * smart-schema-validator: the validation engine and its properties

    A shallow embedding of [SmartValidator] (validator.ts) and of the part of
    the rule catalogue (rules.ts) that the properties below refer to.

    Conventions of the embedding.
    - JavaScript values are the inductive [value]: [undefined], [null],
      booleans, numbers, strings, arrays and plain objects.  Numbers are the
      integers together with [NaN]; strings are sequences of one-byte
      characters, so that [length] counts characters.
    - An object is its list of own enumerable properties in the order in
      which [for ... in] visits them, and assignment to a new key appends
      it at the end (JavaScript moves keys that are array indices to the
      front; no statement below depends on that order).
    - A property read [o[key]] goes through the prototype chain: it finds
      the own property, or else the member of that name which [o] inherits
      from its built-in prototype ([Object.prototype] for an object, and
      before it [Array.prototype], [String.prototype], [Number.prototype]
      or [Boolean.prototype] for the other values).  The schema, the data
      and the output object are all read in this way.  The prototypes are
      the built-in ones and are never replaced: the assignment
      [result.__proto__ = v], which calls the accessor of
      [Object.prototype] and may replace the prototype of the output, is
      written as an ordinary assignment.  The engine reaches it only for
      a schema that has a field of its own named [__proto__], or for data
      that hold [undefined] under an own key of that name.
    - A [TypeError] raised by the engine itself (reading a property of
      [null] or [undefined]) is the outcome [Throw]; an early [return] inside
      a loop is the outcome [Return].  Rule predicates, message functions,
      transforms and default producers are total functions.
    - Of the rule catalogue, the length and bound rules, the sign and
      integer rules, [unique] without a key function and [custom] are
      embedded.  *)

From Stdlib Require Import List String Ascii ZArith Bool Lia DecimalString.
From Stdlib Require Import DecimalPos DecimalZ.
Import ListNotations.
Local Open Scope string_scope.
Local Open Scope list_scope.

(** ** JavaScript values *)

Unset Elimination Schemes.

Inductive value : Type :=
| VUndefined
| VNull
| VBool (b : bool)
| VNum (n : Z)
| VNaN
| VStr (s : string)
| VArr (elems : list value)
| VObj (props : list (string * value)).

Set Elimination Schemes.

Definition is_undefined (v : value) : bool :=
  match v with VUndefined => true | _ => false end.

Definition is_null (v : value) : bool :=
  match v with VNull => true | _ => false end.

(** [Array.isArray(v)] *)
Definition isArray (v : value) : bool :=
  match v with VArr _ => true | _ => false end.

(** [typeof v === "string"], ["number"], ["boolean"] and ["object"];
    [isNaN] on a number. *)
Definition typeof_string (v : value) : bool :=
  match v with VStr _ => true | _ => false end.

Definition typeof_number (v : value) : bool :=
  match v with VNum _ | VNaN => true | _ => false end.

Definition typeof_boolean (v : value) : bool :=
  match v with VBool _ => true | _ => false end.

Definition isNaN (v : value) : bool :=
  match v with VNaN => true | _ => false end.

Definition typeof_object (v : value) : bool :=
  match v with VNull | VArr _ | VObj _ => true | _ => false end.

(** Template-literal rendering of an index and of an integer. *)
Definition string_of_nat (n : nat) : string :=
  NilZero.string_of_uint (Nat.to_uint n).

Definition string_of_Z (z : Z) : string :=
  NilZero.string_of_int (Z.to_int z).

(** ** Property access *)

Fixpoint assoc {A : Type} (l : list (string * A)) (key : string) : option A :=
  match l with
  | [] => None
  | (k, a) :: rest => if String.eqb k key then Some a else assoc rest key
  end.

(** The own property [key] of an object; [undefined] when it has none. *)
Definition obj_get (o : list (string * value)) (key : string) : value :=
  match assoc o key with Some v => v | None => VUndefined end.

(** [o[key] = v] on an object. *)
Fixpoint obj_set (o : list (string * value)) (key : string) (v : value)
  : list (string * value) :=
  match o with
  | [] => [(key, v)]
  | (k, w) :: rest =>
      if String.eqb k key then (k, v) :: rest else (k, w) :: obj_set rest key v
  end.

(** The element whose index prints as [key], scanning from index [i]. *)
Fixpoint index_get {A : Type} (l : list A) (i : nat) (key : string) : option A :=
  match l with
  | [] => None
  | x :: rest =>
      if String.eqb (string_of_nat i) key then Some x
      else index_get rest (S i) key
  end.

Fixpoint chars (s : string) : list value :=
  match s with
  | EmptyString => []
  | String c rest => VStr (String c EmptyString) :: chars rest
  end.

Definition indexed_get (l : list value) (key : string) : value :=
  match index_get l 0 key with
  | Some v => v
  | None =>
      if String.eqb key "length" then VNum (Z.of_nat (List.length l))
      else VUndefined
  end.

(** The own property [key] of [data], [undefined] when there is none;
    [None] is the [TypeError] on [null] and [undefined].  This is what
    [data[key]] gives when [key] is one of the keys that [for ... in]
    visits, as in the second loop of [validate]. *)
Definition js_get (data : value) (key : string) : option value :=
  match data with
  | VUndefined | VNull => None
  | VObj o => Some (obj_get o key)
  | VArr l => Some (indexed_get l key)
  | VStr s => Some (indexed_get (chars s) key)
  | VBool _ | VNum _ | VNaN => Some VUndefined
  end.

(** *** Inherited members

    The string-keyed members of the built-in prototypes (ECMAScript 2024
    with its Annex B).  Every one of them is a function, except
    [__proto__], an accessor that gives the prototype object, and the
    [length] of [Array.prototype] and of [String.prototype], which the own
    [length] of an array or of a string hides.  None is enumerable, so
    [for ... in] visits none, and read through the chain each is a value
    other than [undefined] and [null]. *)
Definition object_members : list string :=
  ["constructor"; "__defineGetter__"; "__defineSetter__"; "hasOwnProperty";
   "__lookupGetter__"; "__lookupSetter__"; "isPrototypeOf";
   "propertyIsEnumerable"; "toString"; "valueOf"; "__proto__";
   "toLocaleString"].

Definition array_members : list string :=
  ["length"; "constructor"; "at"; "concat"; "copyWithin"; "fill"; "find";
   "findIndex"; "findLast"; "findLastIndex"; "lastIndexOf"; "pop"; "push";
   "reverse"; "shift"; "unshift"; "slice"; "sort"; "splice"; "includes";
   "indexOf"; "join"; "keys"; "entries"; "values"; "forEach"; "filter";
   "flat"; "flatMap"; "map"; "every"; "some"; "reduce"; "reduceRight";
   "toReversed"; "toSorted"; "toSpliced"; "with"; "toLocaleString";
   "toString"].

Definition string_members : list string :=
  ["length"; "constructor"; "anchor"; "at"; "big"; "blink"; "bold"; "charAt";
   "charCodeAt"; "codePointAt"; "concat"; "endsWith"; "fontcolor";
   "fontsize"; "fixed"; "includes"; "indexOf"; "isWellFormed"; "italics";
   "lastIndexOf"; "link"; "localeCompare"; "match"; "matchAll"; "normalize";
   "padEnd"; "padStart"; "repeat"; "replace"; "replaceAll"; "search";
   "slice"; "small"; "split"; "strike"; "sub"; "substr"; "substring"; "sup";
   "startsWith"; "toString"; "toWellFormed"; "trim"; "trimStart";
   "trimLeft"; "trimEnd"; "trimRight"; "toLocaleLowerCase";
   "toLocaleUpperCase"; "toLowerCase"; "toUpperCase"; "valueOf"].

Definition number_members : list string :=
  ["constructor"; "toExponential"; "toFixed"; "toPrecision"; "toString";
   "valueOf"; "toLocaleString"].

Definition boolean_members : list string :=
  ["constructor"; "toString"; "valueOf"].

Definition member (key : string) (names : list string) : bool :=
  existsb (String.eqb key) names.
Arguments member : simpl never.

(** What a read [o[key]] finds: an own property and its value, a member
    inherited through the prototype chain, or nothing. *)
Inductive Read : Type :=
| Own (v : value)
| Inherited
| Absent.

(** [o[key] === undefined] and [o[key] === null] *)
Definition reads_undefined (p : Read) : bool :=
  match p with
  | Own v => is_undefined v
  | Inherited => false
  | Absent => true
  end.

Definition reads_null (p : Read) : bool :=
  match p with
  | Own v => is_null v
  | Inherited | Absent => false
  end.

(** The read of a key that is not an own property, on a value whose
    prototype has the members [proto] and is followed by
    [Object.prototype]. *)
Definition chain_read (proto : list string) (key : string) : Read :=
  if member key proto || member key object_members then Inherited else Absent.

(** [o[key]] on an object. *)
Definition obj_read (o : list (string * value)) (key : string) : Read :=
  match assoc o key with
  | Some v => Own v
  | None => chain_read [] key
  end.

(** [l[key]] on an array, or on the characters of a string. *)
Definition indexed_read (l : list value) (proto : list string) (key : string)
  : Read :=
  match index_get l 0 key with
  | Some v => Own v
  | None =>
      if String.eqb key "length" then Own (VNum (Z.of_nat (List.length l)))
      else chain_read proto key
  end.

(** [data[key]]; [None] is the [TypeError] on [null] and [undefined]. *)
Definition js_read (data : value) (key : string) : option Read :=
  match data with
  | VUndefined | VNull => None
  | VObj o => Some (obj_read o key)
  | VArr l => Some (indexed_read l array_members key)
  | VStr s => Some (indexed_read (chars s) string_members key)
  | VNum _ | VNaN => Some (chain_read number_members key)
  | VBool _ => Some (chain_read boolean_members key)
  end.

Fixpoint index_keys (n : nat) (i : nat) : list string :=
  match n with
  | O => []
  | S m => string_of_nat i :: index_keys m (S i)
  end.

(** The keys visited by [for (const k in data)]. *)
Definition js_keys (data : value) : list string :=
  match data with
  | VObj o => map fst o
  | VArr l => index_keys (List.length l) 0
  | VStr s => index_keys (String.length s) 0
  | _ => []
  end.

(** ** types.ts *)

(** The six declared types, and [TUndefined] for a field whose [type]
    property reads [undefined]. *)
Inductive FieldType : Type :=
| TString | TNumber | TBoolean | TObject | TArray | TAny | TUndefined.

Definition type_name (t : FieldType) : string :=
  match t with
  | TString => "string"
  | TNumber => "number"
  | TBoolean => "boolean"
  | TObject => "object"
  | TArray => "array"
  | TAny => "any"
  | TUndefined => "undefined"
  end.

Inductive RuleMessage : Type :=
| MsgText (s : string)
| MsgFun (f : value -> string -> string).

Record ValidationRule : Type := mkRule {
  rule_validate : value -> bool;
  rule_message : RuleMessage
}.

(** [default?: T | (() => T)] *)
Inductive DefaultValue : Type :=
| DefaultLit (v : value)
| DefaultFun (f : unit -> value).

Unset Elimination Schemes.

Inductive SchemaField : Type := mkField {
  type : FieldType;
  required : bool;
  nullable : bool;
  rules : list ValidationRule;
  transform : option (value -> value);
  default : option DefaultValue;
  fields : option (list (string * SchemaField));
  items : option SchemaField
}.

Set Elimination Schemes.

Definition SchemaDefinition : Type := list (string * SchemaField).

(** What [this.schema[key]] finds when the schema has no own field [key]
    and [key] names a member of [Object.prototype]: a function (or the
    prototype itself, under [__proto__]), none of whose properties [type],
    [required], [nullable], [rules], [transform], [default], [fields] and
    [items] is defined. *)
Definition inherited_field : SchemaField :=
  mkField TUndefined false false [] None None None None.

(** [this.schema[key]]; [None] is [undefined]. *)
Definition schema_get (schema : SchemaDefinition) (key : string)
  : option SchemaField :=
  match assoc schema key with
  | Some fld => Some fld
  | None => if member key object_members then Some inherited_field else None
  end.

(** Induction on a field's schema, with the nested fields and the items as
    the smaller schemas. *)
Section SchemaInduction.

Variable P : SchemaField -> Prop.

Hypothesis step :
  forall fieldSchema,
    (forall sub, fields fieldSchema = Some sub ->
                 Forall (fun kf => P (snd kf)) sub) ->
    (forall itemSchema, items fieldSchema = Some itemSchema -> P itemSchema) ->
    P fieldSchema.

Fixpoint SchemaField_ind (fieldSchema : SchemaField) : P fieldSchema :=
  step fieldSchema
    (match fieldSchema
           return forall sub, fields fieldSchema = Some sub ->
                              Forall (fun kf => P (snd kf)) sub with
     | mkField _ _ _ _ _ _ fs _ =>
         match fs return forall sub, fs = Some sub ->
                                     Forall (fun kf => P (snd kf)) sub with
         | Some sub0 =>
             fun sub E =>
               match E in _ = o
                     return match o with
                            | Some s => Forall (fun kf => P (snd kf)) s
                            | None => True
                            end with
               | eq_refl =>
                   (fix all (l : list (string * SchemaField))
                      : Forall (fun kf => P (snd kf)) l :=
                      match l with
                      | [] => Forall_nil _
                      | kf :: rest =>
                          Forall_cons kf (SchemaField_ind (snd kf)) (all rest)
                      end) sub0
               end
         | None => fun sub E => match E with eq_refl => I end
         end
     end)
    (match fieldSchema
           return forall it, items fieldSchema = Some it -> P it with
     | mkField _ _ _ _ _ _ _ its =>
         match its return forall it, its = Some it -> P it with
         | Some it0 =>
             fun it E =>
               match E in _ = o
                     return match o with Some s => P s | None => True end with
               | eq_refl => SchemaField_ind it0
               end
         | None => fun it E => match E with eq_refl => I end
         end
     end).

End SchemaInduction.

Record ValidationError : Type := mkError {
  field : string;
  message : string;
  value_of : value
}.

Record ValidationResult : Type := mkResult {
  valid : bool;
  errors : list ValidationError;
  data : value
}.

(** ** The engine's configuration *)

Inductive ErrorCollectionMode : Type := First | All.

Record Config : Type := mkConfig {
  transformEnabled : bool;
  strictMode : bool;
  errorCollectionMode : ErrorCollectionMode
}.

(** The constructor's defaults. *)
Definition default_config : Config := mkConfig true false All.

Definition is_first (cfg : Config) : bool :=
  match errorCollectionMode cfg with First => true | All => false end.

(** ** Control flow: exceptions and early returns *)

Inductive Outcome (A : Type) : Type :=
| Throw
| Return (r : ValidationResult)
| Next (a : A).
Arguments Throw {A}.
Arguments Return {A} r.
Arguments Next {A} a.

Definition bind {A B : Type} (m : Outcome A) (k : A -> Outcome B) : Outcome B :=
  match m with
  | Throw => Throw
  | Return r => Return r
  | Next a => k a
  end.

Notation "x <- m ;; k" := (bind m (fun x => k))
  (at level 61, m at next level, right associativity).
Notation "' p <- m ;; k" := (bind m (fun x => match x with p => k end))
  (at level 61, p pattern, m at next level, right associativity).

Definition obind {A B : Type} (m : option A) (k : A -> option B) : option B :=
  match m with
  | None => None
  | Some a => k a
  end.

Notation "x <-? m ;; k" := (obind m (fun x => k))
  (at level 61, m at next level, right associativity).

(** A property read that may raise. *)
Definition lift {A : Type} (m : option A) : Outcome A :=
  match m with Some a => Next a | None => Throw end.

(** ** validateType *)

Definition validateType (v : value) (fieldSchema : SchemaField) : bool :=
  match type fieldSchema with
  | TString => typeof_string v
  | TNumber => typeof_number v && negb (isNaN v)
  | TBoolean => typeof_boolean v
  | TObject => typeof_object v && negb (is_null v) && negb (isArray v)
  | TArray => isArray v
  | TAny => true
  | TUndefined => false
  end.

(** ** validate and validateField *)

Definition required_error (fieldName : string) : ValidationError :=
  mkError fieldName ("Field '" ++ fieldName ++ "' is required") VUndefined.

Definition unknown_error (fieldName : string) (v : value) : ValidationError :=
  mkError fieldName ("Unknown field '" ++ fieldName ++ "'") v.

Definition null_error (fieldName : string) : ValidationError :=
  mkError fieldName ("Field '" ++ fieldName ++ "' cannot be null") VNull.

Definition type_error (fieldName : string) (v : value) (fieldSchema : SchemaField)
  : ValidationError :=
  mkError fieldName
    ("Field '" ++ fieldName ++ "' must be of type " ++ type_name (type fieldSchema)) v.

(** The early return [{ valid: false, errors, data: null }]. *)
Definition failed (errs : list ValidationError) : ValidationResult :=
  mkResult false errs VNull.

(** The guard [errorCollectionMode === "first" && errors.length > 0] that
    follows every push in [validate]. *)
Definition checkpoint (cfg : Config) (errs : list ValidationError)
  : Outcome (list ValidationError) :=
  if is_first cfg && negb (Nat.eqb (List.length errs) 0)
  then Return (failed errs) else Next errs.

(** The condition of the first loop, on the value of an own property of
    the data and on what a read of the data finds. *)
Definition missing_required (fld : SchemaField) (v : value) : bool :=
  required fld && (is_undefined v || (is_null v && negb (nullable fld))).

Definition reads_missing (fld : SchemaField) (p : Read) : bool :=
  required fld && (reads_undefined p || (reads_null p && negb (nullable fld))).

Section Passes.

Variable cfg : Config.
Variable schema : SchemaDefinition.
(** [this.validateField(fieldName, value, this.schema[fieldName])]; the
    outer [None] is a field name under which [this.schema] has nothing. *)
Variable validateFieldOf :
  string -> value -> option (option (list ValidationError)).
Variable input : value.

(** First loop: the required fields.  [field.required] is read before the
    data, so that only a required field can raise on [null] data. *)
Fixpoint requiredPass (names : list string) (errs : list ValidationError)
  : Outcome (list ValidationError) :=
  match names with
  | [] => Next errs
  | fieldName :: rest =>
      fld <- lift (schema_get schema fieldName) ;;
      if required fld then
        p <- lift (js_read input fieldName) ;;
        if reads_undefined p || (reads_null p && negb (nullable fld)) then
          errs' <- checkpoint cfg (errs ++ [required_error fieldName]) ;;
          requiredPass rest errs'
        else requiredPass rest errs
      else requiredPass rest errs
  end.

(** Second loop: the keys of the data.  A key that [for ... in] visits is
    an own property of the data, so [data[fieldName]] is [js_get]. *)
Fixpoint fieldPass (names : list string)
    (st : list ValidationError * list (string * value))
  : Outcome (list ValidationError * list (string * value)) :=
  match names with
  | [] => Next st
  | fieldName :: rest =>
      let '(errs, result) := st in
      match schema_get schema fieldName with
      | None =>
          v <- lift (js_get input fieldName) ;;
          if strictMode cfg then
            errs' <- checkpoint cfg (errs ++ [unknown_error fieldName v]) ;;
            fieldPass rest (errs', result)
          else fieldPass rest (errs, obj_set result fieldName v)
      | Some fld =>
          v <- lift (js_get input fieldName) ;;
          fieldErrors <-
            lift (match validateFieldOf fieldName v with
                  | Some r => r
                  | None => None
                  end) ;;
          if negb (Nat.eqb (List.length fieldErrors) 0) then
            errs' <- checkpoint cfg (errs ++ fieldErrors) ;;
            fieldPass rest (errs', result)
          else
            let v' :=
              match transform fld with
              | Some f => if transformEnabled cfg then f v else v
              | None => v
              end in
            fieldPass rest (errs, obj_set result fieldName v')
      end
  end.

(** [this.schema[fieldName].default !== undefined] *)
Definition has_default (fld : SchemaField) : bool :=
  match default fld with
  | None => false
  | Some (DefaultLit v) => negb (is_undefined v)
  | Some (DefaultFun _) => true
  end.

(** [typeof defaultValue === "function" ? defaultValue() : defaultValue] *)
Definition default_value (fld : SchemaField) : value :=
  match default fld with
  | None => VUndefined
  | Some (DefaultLit v) => v
  | Some (DefaultFun f) => f tt
  end.

(** Third loop: the defaults. *)
Fixpoint defaultPass (names : list string) (result : list (string * value))
  : Outcome (list (string * value)) :=
  match names with
  | [] => Next result
  | fieldName :: rest =>
      fld <- lift (schema_get schema fieldName) ;;
      if reads_undefined (obj_read result fieldName) && has_default fld
      then defaultPass rest (obj_set result fieldName (default_value fld))
      else defaultPass rest result
  end.

Definition finish (errs : list ValidationError) (result : list (string * value))
  : ValidationResult :=
  mkResult (Nat.eqb (List.length errs) 0) errs
           (if Nat.eqb (List.length errs) 0 then VObj result else VNull).

Definition validate_body : Outcome ValidationResult :=
  errs1 <- requiredPass (map fst schema) [] ;;
  '(errs2, result) <- fieldPass (js_keys input) (errs1, []) ;;
  result' <- defaultPass (map fst schema) result ;;
  Return (finish errs2 result').

(** [None] is an exception that escapes [validate]. *)
Definition run (m : Outcome ValidationResult) : option ValidationResult :=
  match m with
  | Throw => None
  | Return r => Some r
  | Next r => Some r
  end.

End Passes.

(** [value.forEach((item, index) => ...)], started at [index]. *)
Fixpoint forEach {A : Type} (f : A -> nat -> option (list ValidationError))
    (l : list A) (index : nat) : option (list ValidationError) :=
  match l with
  | [] => Some []
  | item :: rest =>
      e <-? f item index ;;
      es <-? forEach f rest (S index) ;;
      Some (e ++ es)
  end.

(** Re-emission of a nested error under the path of its container. *)
Definition prefix_error (path : string) (e : ValidationError) : ValidationError :=
  mkError (path ++ "." ++ field e) (message e) (value_of e).

Definition nested_errors (path : string) (r : ValidationResult)
  : list ValidationError :=
  if negb (valid r) then map (prefix_error path) (errors r) else [].

Definition rule_error (fieldName : string) (v : value) (rule : ValidationRule)
  : ValidationError :=
  mkError fieldName
    (match rule_message rule with
     | MsgText s => s
     | MsgFun f => f v fieldName
     end) v.

(** The loop over [fieldSchema.rules], with its [break] in "first" mode. *)
Fixpoint ruleChain (cfg : Config) (fieldName : string) (v : value)
    (rs : list ValidationRule) : list ValidationError :=
  match rs with
  | [] => []
  | rule :: rest =>
      if negb (rule_validate rule v) then
        rule_error fieldName v rule ::
          (if is_first cfg then [] else ruleChain cfg fieldName v rest)
      else ruleChain cfg fieldName v rest
  end.

Definition item_path (fieldName : string) (index : nat) : string :=
  fieldName ++ "[" ++ string_of_nat index ++ "]".

Definition is_object_type (t : FieldType) : bool :=
  match t with TObject => true | _ => false end.

Definition is_array_type (t : FieldType) : bool :=
  match t with TArray => true | _ => false end.

(** [k] applied to what [l] holds under [key]: [option_map k (assoc l key)]
    written as one recursion over [l]. *)
Section AssocWith.

Context {A B : Type}.
Variable key : string.
Variable k : A -> B.

Fixpoint assoc_with (l : list (string * A)) : option B :=
  match l with
  | [] => None
  | (k0, a) :: rest =>
      if String.eqb k0 key then Some (k a) else assoc_with rest
  end.

End AssocWith.

(** [k] applied to [this.schema[key]], where [inherited] is [k] at
    [inherited_field]: [option_map k (schema_get schema key)]. *)
Definition schema_with {B : Type} (key : string) (k : SchemaField -> B)
    (inherited : B) (schema : list (string * SchemaField)) : option B :=
  match assoc_with key k schema with
  | Some b => Some b
  | None => if member key object_members then Some inherited else None
  end.

(** The errors of [validateField] on [inherited_field], where it does not
    call itself: a [null] is refused, [undefined] is accepted, and no other
    value is of the type of the field.  That this is [validateField] at
    [inherited_field] is lemma [validateField_inherited] below. *)
Definition inherited_field_errors (fieldName : string) (v : value)
  : list ValidationError :=
  if is_null v then [null_error fieldName]
  else if is_undefined v then []
  else [type_error fieldName v inherited_field].

(** [validateField], by recursion on the field's schema.  A nested
    [SmartValidator] over [fields] validates a key of its data against what
    [fields] gives under that key: a field of its own, on which the
    recursion goes on, or an inherited member, on which the result is
    [inherited_field_errors]. *)
Fixpoint validateField (cfg : Config) (fieldName : string) (v : value)
    (fieldSchema : SchemaField) {struct fieldSchema}
  : option (list ValidationError) :=
  let nested (sub : list (string * SchemaField)) (input : value) :=
    run (validate_body cfg sub
           (fun name w =>
              schema_with name (fun fld => validateField cfg name w fld)
                (Some (inherited_field_errors name w)) sub)
           input) in
  if is_null v then
    if nullable fieldSchema then Some [] else Some [null_error fieldName]
  else if is_undefined v && negb (required fieldSchema) then Some []
  else if negb (validateType v fieldSchema) then
    Some [type_error fieldName v fieldSchema]
  else
    objErrors <-?
      match fields fieldSchema with
      | Some sub =>
          if is_object_type (type fieldSchema) && typeof_object v then
            nestedResult <-? nested sub v ;;
            Some (nested_errors fieldName nestedResult)
          else Some []
      | None => Some []
      end ;;
    arrErrors <-?
      match items fieldSchema, v with
      | Some itemSchema, VArr elems =>
          if is_array_type (type fieldSchema) then
            forEach
              (fun item index =>
                 match fields itemSchema with
                 | Some sub =>
                     if is_object_type (type itemSchema) then
                       itemResult <-? nested sub item ;;
                       Some (nested_errors (item_path fieldName index) itemResult)
                     else
                       validateField cfg (item_path fieldName index) item itemSchema
                 | None =>
                     validateField cfg (item_path fieldName index) item itemSchema
                 end)
              elems 0
          else Some []
      | _, _ => Some []
      end ;;
    Some (objErrors ++ arrErrors ++ ruleChain cfg fieldName v (rules fieldSchema)).

(** [this.validateField(fieldName, v, this.schema[fieldName])] *)
Definition validateFieldIn (cfg : Config) (schema : SchemaDefinition)
    (fieldName : string) (v : value) : option (option (list ValidationError)) :=
  schema_with fieldName (validateField cfg fieldName v)
    (Some (inherited_field_errors fieldName v)) schema.

(** [new SmartValidator(schema, cfg).validate(data)] *)
Definition validate (cfg : Config) (schema : SchemaDefinition) (input : value)
  : option ValidationResult :=
  run (validate_body cfg schema (validateFieldIn cfg schema) input).

(** ** rules.ts *)

(** [JSON.stringify], which [rules.array.unique] compares items by;
    [None] is the [undefined] it returns for [undefined]. *)
Definition dquote : string := String (ascii_of_nat 34) EmptyString.
Definition backslash : string := String (ascii_of_nat 92) EmptyString.

Definition hex_digit (n : nat) : string :=
  String (ascii_of_nat (if Nat.ltb n 10 then 48 + n else 87 + n)) EmptyString.

Definition escape_char (c : ascii) : string :=
  let n := nat_of_ascii c in
  if Nat.eqb n 34 then backslash ++ dquote
  else if Nat.eqb n 92 then backslash ++ backslash
  else if Nat.eqb n 8 then backslash ++ "b"
  else if Nat.eqb n 9 then backslash ++ "t"
  else if Nat.eqb n 10 then backslash ++ "n"
  else if Nat.eqb n 12 then backslash ++ "f"
  else if Nat.eqb n 13 then backslash ++ "r"
  else if Nat.ltb n 32 then
    backslash ++ "u00" ++ hex_digit (Nat.div n 16) ++ hex_digit (Nat.modulo n 16)
  else String c EmptyString.

Fixpoint escape (s : string) : string :=
  match s with
  | EmptyString => EmptyString
  | String c rest => escape_char c ++ escape rest
  end.

Definition quote (s : string) : string := dquote ++ escape s ++ dquote.

Fixpoint join (sep : string) (l : list string) : string :=
  match l with
  | [] => ""
  | [s] => s
  | s :: rest => s ++ sep ++ join sep rest
  end.

Fixpoint stringify (v : value) : option string :=
  match v with
  | VUndefined => None
  | VNull | VNaN => Some "null"
  | VBool b => Some (if b then "true" else "false")
  | VNum n => Some (string_of_Z n)
  | VStr s => Some (quote s)
  | VArr elems =>
      Some ("[" ++
            join "," (map (fun e => match stringify e with
                                    | Some s => s
                                    | None => "null"
                                    end) elems) ++ "]")%string
  | VObj props =>
      Some ("{" ++
            join "," (flat_map (fun kv => match stringify (snd kv) with
                                          | Some s => [(quote (fst kv) ++ ":" ++ s)%string]
                                          | None => []
                                          end) props) ++ "}")%string
  end.

Definition key_eqb (a b : option string) : bool :=
  match a, b with
  | Some x, Some y => String.eqb x y
  | None, None => true
  | _, _ => false
  end.

(** The elements of [new Set(l)], in insertion order. *)
Fixpoint set_of (l : list (option string)) : list (option string) :=
  match l with
  | [] => []
  | x :: rest => x :: filter (fun y => negb (key_eqb x y)) (set_of rest)
  end.

Definition str_length (s : string) : Z := Z.of_nat (String.length s).
Definition arr_length (l : list value) : Z := Z.of_nat (List.length l).

Module rules.

Definition string_min (length : Z) : ValidationRule :=
  mkRule (fun v => match v with VStr s => Z.geb (str_length s) length | _ => false end)
         (MsgFun (fun _ fld =>
            (fld ++ " must be at least " ++ string_of_Z length ++ " characters long")%string)).

Definition string_max (length : Z) : ValidationRule :=
  mkRule (fun v => match v with VStr s => Z.leb (str_length s) length | _ => false end)
         (MsgFun (fun _ fld =>
            (fld ++ " must be at most " ++ string_of_Z length ++ " characters long")%string)).

Definition number_min (limit : Z) : ValidationRule :=
  mkRule (fun v => match v with VNum n => Z.geb n limit | _ => false end)
         (MsgFun (fun _ fld => (fld ++ " must be at least " ++ string_of_Z limit)%string)).

Definition number_max (limit : Z) : ValidationRule :=
  mkRule (fun v => match v with VNum n => Z.leb n limit | _ => false end)
         (MsgFun (fun _ fld => (fld ++ " must be at most " ++ string_of_Z limit)%string)).

Definition array_min (length : Z) : ValidationRule :=
  mkRule (fun v => match v with VArr l => Z.geb (arr_length l) length | _ => false end)
         (MsgFun (fun _ fld =>
            (fld ++ " must contain at least " ++ string_of_Z length ++ " items")%string)).

Definition array_max (length : Z) : ValidationRule :=
  mkRule (fun v => match v with VArr l => Z.leb (arr_length l) length | _ => false end)
         (MsgFun (fun _ fld =>
            (fld ++ " must contain at most " ++ string_of_Z length ++ " items")%string)).

(** [unique()] without a key function. *)
Definition array_unique : ValidationRule :=
  mkRule (fun v =>
            match v with
            | VArr l =>
                let jsonItems := map stringify l in
                Nat.eqb (List.length (set_of jsonItems)) (List.length jsonItems)
            | _ => false
            end)
         (MsgFun (fun _ fld => (fld ++ " must contain unique items")%string)).

Definition custom (validationFn : value -> bool) (msg : RuleMessage)
  : ValidationRule :=
  mkRule validationFn msg.

End rules.

(** ** Schemas and inputs of the documented scenarios *)

Definition plain (t : FieldType) : SchemaField :=
  mkField t false false [] None None None None.

Definition set_required (f : SchemaField) : SchemaField :=
  mkField (type f) true (nullable f) (rules f) (transform f) (default f)
          (fields f) (items f).

Definition tags_schema : SchemaDefinition :=
  [("tags",
    mkField TArray false false [rules.array_unique] None None None
      (Some (mkField TString false false [rules.string_min 2] None None None None)))].

Definition tags_input : value :=
  VObj [("tags", VArr [VStr "a"; VStr "bb"; VStr "bb"])].

Definition user_schema : SchemaDefinition :=
  [("user",
    mkField TObject true false [] None None
      (Some [("profile",
              mkField TObject true false [] None None
                (Some [("firstName", set_required (plain TString))]) None)])
      None)].

Definition user_input : value :=
  VObj [("user", VObj [("profile", VObj [])])].

(** An array of strings of at least two characters, without rules of its
    own. *)
Definition words_schema : SchemaDefinition :=
  [("tags",
    mkField TArray false false [] None None None
      (Some (mkField TString false false [rules.string_min 2] None None None None)))].

Definition words_input : value :=
  VObj [("tags", VArr [VStr "a"; VStr "b"])].

(** A schema that requires a number under the name [length]. *)
Definition length_schema : SchemaDefinition :=
  [("length", set_required (plain TNumber))].

(** ** The three sources of errors of one field

    [validateField] past its early exits, phrased with [validate]: the
    nested-object block, the [forEach] over the items, and the rule chain. *)

Definition objectErrors (cfg : Config) (fieldName : string) (v : value)
    (fieldSchema : SchemaField) : option (list ValidationError) :=
  match fields fieldSchema with
  | Some sub =>
      if is_object_type (type fieldSchema) && typeof_object v then
        nestedResult <-? validate cfg sub v ;;
        Some (nested_errors fieldName nestedResult)
      else Some []
  | None => Some []
  end.

Definition itemErrors (cfg : Config) (fieldName : string)
    (itemSchema : SchemaField) (item : value) (index : nat)
  : option (list ValidationError) :=
  match fields itemSchema with
  | Some sub =>
      if is_object_type (type itemSchema) then
        itemResult <-? validate cfg sub item ;;
        Some (nested_errors (item_path fieldName index) itemResult)
      else validateField cfg (item_path fieldName index) item itemSchema
  | None => validateField cfg (item_path fieldName index) item itemSchema
  end.

Definition arrayErrors (cfg : Config) (fieldName : string) (v : value)
    (fieldSchema : SchemaField) : option (list ValidationError) :=
  match items fieldSchema, v with
  | Some itemSchema, VArr elems =>
      if is_array_type (type fieldSchema)
      then forEach (itemErrors cfg fieldName itemSchema) elems 0
      else Some []
  | _, _ => Some []
  end.

(** The value that the second loop stores for a field without errors. *)
Definition stored (cfg : Config) (fld : SchemaField) (v : value) : value :=
  match transform fld with
  | Some f => if transformEnabled cfg then f v else v
  | None => v
  end.

(** The same engine with transforms switched off. *)
Definition without_transforms (cfg : Config) : Config :=
  mkConfig false (strictMode cfg) (errorCollectionMode cfg).

(** The invariants of a result. *)
Definition result_invariant (r : ValidationResult) : Prop :=
  (valid r = true <-> errors r = []) /\
  (valid r = true <-> data r <> VNull) /\
  (errors r <> [] -> data r = VNull).

(** An early return carries a non-empty error list and no data. *)
Definition early (cfg : Config) (r : ValidationResult) : Prop :=
  exists errs, errs <> [] /\ r = failed errs /\ is_first cfg = true.

(** What one iteration of the second loop contributes for the key [k]: the
    errors it pushes and the value it stores, if any. *)
Definition verdict (cfg : Config) (schema : SchemaDefinition)
    (vfo : string -> value -> option (option (list ValidationError)))
    (input : value) (k : string)
  : option (list ValidationError * option value) :=
  v <-? js_get input k ;;
  match schema_get schema k with
  | None =>
      if strictMode cfg then Some ([unknown_error k v], None)
      else Some ([], Some v)
  | Some fld =>
      fieldErrors <-? match vfo k v with Some r => r | None => None end ;;
      match fieldErrors with
      | [] => Some ([], Some (stored cfg fld v))
      | _ :: _ => Some (fieldErrors, None)
      end
  end.

(** The value of the field [k] after the third loop, from the object
    assembled by the second. *)
Definition defaulted (schema : SchemaDefinition) (result : list (string * value))
    (k : string) : value :=
  match assoc schema k with
  | Some fld =>
      if reads_undefined (obj_read result k) && has_default fld
      then default_value fld else obj_get result k
  | None => obj_get result k
  end.

(** Whether the first loop reports the schema field [k] for this input. *)
Definition reported_missing (schema : SchemaDefinition) (input : value)
    (k : string) : bool :=
  match assoc schema k, js_read input k with
  | Some fld, Some p => reads_missing fld p
  | _, _ => false
  end.

(** Two configurations that differ at most in [transformEnabled]. *)
Definition same_policy (cfg1 cfg2 : Config) : Prop :=
  strictMode cfg1 = strictMode cfg2 /\
  errorCollectionMode cfg1 = errorCollectionMode cfg2.

(** What a caller of a nested validator looks at. *)
Definition report (r : ValidationResult) : bool * list ValidationError :=
  (valid r, errors r).

(** Every property of the input is visited by [for ... in]: under any
    other name the input reads as an empty object does, as the member of
    [Object.prototype] of that name or as [undefined].  Plain objects are
    of this kind. *)
Definition enumerable (input : value) : Prop :=
  forall k p,
    js_read input k = Some p -> ~ In k (js_keys input) -> p = chain_read [] k.

Definition has_transform (cfg : Config) (fld : SchemaField) : bool :=
  transformEnabled cfg &&
  match transform fld with Some _ => true | None => false end.

(** Transforms and defaults do not reintroduce violations: the output value
    of every field that has a transform or a default passes that field's own
    checks. *)
Definition produced_values_pass (cfg : Config) (schema : SchemaDefinition)
    (out : value) : Prop :=
  forall k fld w,
    assoc schema k = Some fld ->
    has_transform cfg fld || has_default fld = true ->
    js_get out k = Some w ->
    missing_required fld w = false /\
    validateField (without_transforms cfg) k w fld = Some [].

(** ** rules.ts, continued *)

Module rules_more.

Definition number_positive : ValidationRule :=
  mkRule (fun v => match v with VNum n => Z.gtb n 0 | _ => false end)
         (MsgFun (fun _ fld => (fld ++ " must be positive")%string)).

Definition number_negative : ValidationRule :=
  mkRule (fun v => match v with VNum n => Z.ltb n 0 | _ => false end)
         (MsgFun (fun _ fld => (fld ++ " must be negative")%string)).

(** [Number.isInteger] holds of every number of the embedding but [NaN]. *)
Definition number_integer : ValidationRule :=
  mkRule (fun v => match v with VNum _ => true | _ => false end)
         (MsgFun (fun _ fld => (fld ++ " must be an integer")%string)).

End rules_more.

(** ** Notions used by the further properties *)

(** [l] is [m] with some elements left out. *)
Inductive subseq {A : Type} : list A -> list A -> Prop :=
| subseq_nil : subseq [] []
| subseq_skip x l m : subseq l m -> subseq l (x :: m)
| subseq_keep x l m : subseq l m -> subseq (x :: l) (x :: m).

(** No array inside [v], at any depth, holds [null] or [undefined]. *)
Fixpoint no_nullish_items (v : value) : bool :=
  match v with
  | VArr elems =>
      forallb (fun e => negb (is_null e) && negb (is_undefined e) &&
                        no_nullish_items e) elems
  | VObj props => forallb (fun kv => no_nullish_items (snd kv)) props
  | _ => true
  end.

Definition is_nullish (v : value) : bool := is_null v || is_undefined v.

(** Some field of the schema is required. *)
Definition has_required (schema : SchemaDefinition) : bool :=
  existsb (fun k => match assoc schema k with
                    | Some fld => required fld
                    | None => false
                    end) (map fst schema).

(** The errors that the second loop pushes for the key [k]. *)
Definition key_errors (cfg : Config) (schema : SchemaDefinition) (input : value)
    (k : string) : list ValidationError :=
  match verdict cfg schema (validateFieldIn cfg schema) input k with
  | Some (fe, _) => fe
  | None => []
  end.

(** The rules of a chain that [v] fails. *)
Definition failing (v : value) (rs : list ValidationRule) : list ValidationRule :=
  filter (fun rule => negb (rule_validate rule v)) rs.

(** [ef] keeps some of the errors of [ea], and at least one if there is
    any. *)
Definition selects (ef ea : list ValidationError) : Prop :=
  subseq ef ea /\ (ef = [] -> ea = []).

(** The errors that an outcome carries: those of the result of an early
    return, or those of the state with which the loop goes on. *)
Definition outcome_errors {A : Type} (proj : A -> list ValidationError)
    (o : Outcome A) : list ValidationError :=
  match o with
  | Throw => []
  | Return r => errors r
  | Next a => proj a
  end.

(** [path] is [fieldName], possibly followed by a sub-path. *)
Definition under (fieldName path : string) : Prop :=
  exists suffix, path = (fieldName ++ suffix)%string.

(** Strings, integers and booleans. *)
Definition is_scalar (v : value) : bool :=
  match v with VStr _ | VNum _ | VBool _ => true | _ => false end.

Definition hex_value (c : ascii) : nat :=
  let n := nat_of_ascii c in if Nat.ltb n 58 then n - 48 else n - 87.

(** Reads back the character that [escape_char] wrote at the front of a
    string. *)
Definition unescape_char (s : string) : option (ascii * string) :=
  match s with
  | EmptyString => None
  | String c rest =>
      if negb (Nat.eqb (nat_of_ascii c) 92) then Some (c, rest)
      else
        match rest with
        | EmptyString => None
        | String d rest' =>
            let m := nat_of_ascii d in
            if Nat.eqb m 34 then Some (ascii_of_nat 34, rest')
            else if Nat.eqb m 92 then Some (ascii_of_nat 92, rest')
            else if Nat.eqb m 98 then Some (ascii_of_nat 8, rest')
            else if Nat.eqb m 116 then Some (ascii_of_nat 9, rest')
            else if Nat.eqb m 110 then Some (ascii_of_nat 10, rest')
            else if Nat.eqb m 102 then Some (ascii_of_nat 12, rest')
            else if Nat.eqb m 114 then Some (ascii_of_nat 13, rest')
            else
              match rest' with
              | String _ (String _ (String h1 (String h2 rest''))) =>
                  Some (ascii_of_nat (16 * hex_value h1 + hex_value h2), rest'')
              | _ => None
              end
        end
  end.

(** * Properties *)

(** ** Outcomes *)

Lemma bind_Next {A B : Type} (m : Outcome A) (k : A -> Outcome B) (b : B) :
  bind m k = Next b -> exists a, m = Next a /\ k a = Next b.
Proof. destruct m; simpl; intros H; try discriminate; eauto. Qed.

Lemma bind_Return {A B : Type} (m : Outcome A) (k : A -> Outcome B) r :
  bind m k = Return r ->
  m = Return r \/ exists a, m = Next a /\ k a = Return r.
Proof.
  destruct m; simpl; intros H; try discriminate; [left; congruence | right; eauto].
Qed.

Lemma lift_Next {A : Type} (m : option A) (a : A) :
  lift m = Next a -> m = Some a.
Proof. destruct m; simpl; intros H; congruence. Qed.

Lemma lift_not_Return {A : Type} (m : option A) r : lift m <> Return r.
Proof. destruct m; simpl; discriminate. Qed.

Lemma run_Some (m : Outcome ValidationResult) r :
  run m = Some r -> m = Return r \/ m = Next r.
Proof. destruct m; simpl; intros H; inversion H; auto. Qed.

Lemma length_eqb_nil {A : Type} (l : list A) :
  Nat.eqb (List.length l) 0 = true <-> l = [].
Proof. destruct l; simpl; split; intros H; congruence. Qed.

(** ** Association lists *)

Lemma assoc_with_assoc {A B : Type} (key : string) (k : A -> B) l :
  assoc_with key k l = option_map k (assoc l key).
Proof.
  induction l as [|[k0 a] rest IH]; simpl; [reflexivity|].
  destruct (String.eqb k0 key); [reflexivity | exact IH].
Qed.

Lemma assoc_cons {A : Type} k0 (a : A) l key :
  assoc ((k0, a) :: l) key = if String.eqb k0 key then Some a else assoc l key.
Proof. reflexivity. Qed.

Lemma assoc_In_keys {A : Type} (l : list (string * A)) key :
  In key (map fst l) <-> exists a, assoc l key = Some a.
Proof.
  induction l as [|[k0 a] rest IH]; simpl.
  - split; [tauto | intros [a H]; discriminate].
  - destruct (String.eqb k0 key) eqn:E.
    + apply String.eqb_eq in E. split; eauto.
    + apply String.eqb_neq in E. rewrite <- IH. tauto.
Qed.

Lemma assoc_None_keys {A : Type} (l : list (string * A)) key :
  assoc l key = None <-> ~ In key (map fst l).
Proof.
  rewrite assoc_In_keys. destruct (assoc l key); split; intros H.
  - discriminate.
  - exfalso; eauto.
  - intros [a Ha]; discriminate.
  - reflexivity.
Qed.

Lemma assoc_set_same o key (v : value) : assoc (obj_set o key v) key = Some v.
Proof.
  induction o as [|[k w] rest IH]; simpl.
  - now rewrite String.eqb_refl.
  - destruct (String.eqb k key) eqn:E; simpl; rewrite E; auto.
Qed.

Lemma assoc_set_other o key key' (v : value) :
  key <> key' -> assoc (obj_set o key v) key' = assoc o key'.
Proof.
  intros Hne. induction o as [|[k w] rest IH]; simpl.
  - apply String.eqb_neq in Hne. now rewrite Hne.
  - destruct (String.eqb k key) eqn:E; simpl.
    + apply String.eqb_eq in E. subst k.
      apply String.eqb_neq in Hne. now rewrite Hne.
    + destruct (String.eqb k key'); auto.
Qed.

Lemma obj_get_set_same o key v : obj_get (obj_set o key v) key = v.
Proof.
  unfold obj_get. induction o as [|[k w] rest IH]; simpl.
  - now rewrite String.eqb_refl.
  - destruct (String.eqb k key) eqn:E; simpl; rewrite E; auto.
Qed.

Lemma obj_set_keys o key v k :
  In k (map fst (obj_set o key v)) <-> In k (map fst o) \/ k = key.
Proof.
  induction o as [|[k0 w] rest IH]; simpl.
  - split; [intros [H|[]]; auto | intros [[]|H]; auto].
  - destruct (String.eqb k0 key) eqn:E; simpl.
    + apply String.eqb_eq in E. subst k0. intuition auto.
    + rewrite IH. tauto.
Qed.

(** ** Reads through the prototype chain *)

Lemma schema_get_own schema key fld :
  assoc schema key = Some fld -> schema_get schema key = Some fld.
Proof. unfold schema_get. now intros ->. Qed.

Lemma schema_get_keys schema key :
  In key (map fst schema) -> schema_get schema key = assoc schema key.
Proof.
  intros H. apply assoc_In_keys in H as [fld H]. unfold schema_get.
  now rewrite H.
Qed.

Lemma schema_get_cases schema key fld :
  schema_get schema key = Some fld ->
  assoc schema key = Some fld \/
  (assoc schema key = None /\ member key object_members = true /\
   fld = inherited_field).
Proof.
  unfold schema_get. destruct (assoc schema key) as [f|]; [intros H; now left|].
  destruct (member key object_members); intros H; [|discriminate].
  right. repeat split. congruence.
Qed.

Lemma schema_get_None schema key :
  schema_get schema key = None <->
  assoc schema key = None /\ member key object_members = false.
Proof.
  unfold schema_get. destruct (assoc schema key) as [f|].
  - split; [discriminate | intros [H _]; discriminate].
  - destruct (member key object_members); split; try discriminate; auto.
    intros [_ H]; discriminate.
Qed.

Lemma schema_with_get {B : Type} key (k : SchemaField -> B) schema :
  schema_with key k (k inherited_field) schema =
  option_map k (schema_get schema key).
Proof.
  unfold schema_with, schema_get. rewrite assoc_with_assoc.
  destruct (assoc schema key); [reflexivity|]. cbn [option_map].
  destruct (member key object_members); reflexivity.
Qed.

(** [validateField] on a member that the schema inherits. *)
Lemma validateField_inherited cfg fieldName v :
  validateField cfg fieldName v inherited_field =
  Some (inherited_field_errors fieldName v).
Proof. destruct v; reflexivity. Qed.

Lemma validateFieldIn_get cfg schema fieldName v :
  validateFieldIn cfg schema fieldName v =
  option_map (validateField cfg fieldName v) (schema_get schema fieldName).
Proof.
  unfold validateFieldIn. rewrite <- (validateField_inherited cfg).
  apply schema_with_get.
Qed.

Lemma validateFieldIn_assoc cfg schema fieldName v fld :
  assoc schema fieldName = Some fld ->
  validateFieldIn cfg schema fieldName v =
  Some (validateField cfg fieldName v fld).
Proof.
  intros H. rewrite validateFieldIn_get, (schema_get_own _ _ _ H). reflexivity.
Qed.

Lemma index_get_keys {A : Type} (l : list A) i key :
  In key (index_keys (List.length l) i) -> exists x, index_get l i key = Some x.
Proof.
  revert i. induction l as [|y rest IH]; intros i H; simpl in *; [contradiction|].
  destruct (String.eqb (string_of_nat i) key) eqn:E; [eauto|].
  destruct H as [H|H]; [|now apply IH].
  apply String.eqb_neq in E. contradiction.
Qed.

Lemma chars_length s : List.length (chars s) = String.length s.
Proof. induction s; simpl; congruence. Qed.

(** On a key that [for ... in] visits, a read finds the own property. *)
Lemma js_read_keys input k :
  In k (js_keys input) ->
  exists v, js_read input k = Some (Own v) /\ js_get input k = Some v.
Proof.
  destruct input as [| | | | | s | l | o]; simpl; try contradiction.
  - intros H. rewrite <- chars_length in H. apply index_get_keys in H as [x H].
    exists x. unfold indexed_read, indexed_get. now rewrite H.
  - intros H. apply index_get_keys in H as [x H].
    exists x. unfold indexed_read, indexed_get. now rewrite H.
  - intros H. apply assoc_In_keys in H as [x H].
    exists x. unfold obj_read, obj_get. now rewrite H.
Qed.

Lemma js_read_Own input k v :
  js_read input k = Some (Own v) -> js_get input k = Some v.
Proof.
  destruct input as [| | | | | s | l | o]; simpl; try discriminate;
    unfold indexed_read, indexed_get, obj_read, obj_get, chain_read.
  - destruct (member k boolean_members || member k object_members); discriminate.
  - destruct (member k number_members || member k object_members); discriminate.
  - destruct (member k number_members || member k object_members); discriminate.
  - destruct (index_get (chars s) 0 k); [congruence|].
    destruct (String.eqb k "length"); [congruence|].
    destruct (member k string_members || member k object_members); discriminate.
  - destruct (index_get l 0 k); [congruence|].
    destruct (String.eqb k "length"); [congruence|].
    destruct (member k array_members || member k object_members); discriminate.
  - destruct (assoc o k); [congruence|].
    destruct (member k [] || member k object_members); discriminate.
Qed.

Lemma js_read_readable input k p k' :
  js_read input k = Some p -> exists p', js_read input k' = Some p'.
Proof. destruct input; simpl; intros H; try discriminate; eauto. Qed.

Lemma reads_missing_Own fld v :
  reads_missing fld (Own v) = missing_required fld v.
Proof. reflexivity. Qed.

Lemma obj_read_own o k v : assoc o k = Some v -> obj_read o k = Own v.
Proof. unfold obj_read. now intros ->. Qed.

Lemma obj_read_none o k : assoc o k = None -> obj_read o k = chain_read [] k.
Proof. unfold obj_read. now intros ->. Qed.

Lemma obj_read_set_same o k v : obj_read (obj_set o k v) k = Own v.
Proof. apply obj_read_own, assoc_set_same. Qed.

(** ** The loops of [validate] *)

Lemma checkpoint_Next cfg errs errs' :
  checkpoint cfg errs = Next errs' ->
  errs' = errs /\ (is_first cfg = false \/ errs = []).
Proof.
  unfold checkpoint. destruct (is_first cfg); simpl.
  - destruct errs; simpl; intros H; inversion H; auto.
  - intros H; inversion H; auto.
Qed.

Lemma checkpoint_Return cfg errs r :
  checkpoint cfg errs = Return r ->
  r = failed errs /\ errs <> [] /\ is_first cfg = true.
Proof.
  unfold checkpoint. destruct (is_first cfg); simpl.
  - destruct errs; simpl; intros H; inversion H.
    repeat split; discriminate.
  - discriminate.
Qed.

Lemma checkpoint_all cfg errs :
  is_first cfg = false -> checkpoint cfg errs = Next errs.
Proof. unfold checkpoint. now intros ->. Qed.

Lemma checkpoint_first cfg errs :
  is_first cfg = true -> errs <> [] -> checkpoint cfg errs = Return (failed errs).
Proof.
  unfold checkpoint. intros -> H. destruct errs; [congruence | reflexivity].
Qed.

Section PassFacts.

Variable cfg : Config.
Variable schema : SchemaDefinition.
Variable vfo : string -> value -> option (option (list ValidationError)).
Variable input : value.

Lemma requiredPass_Return names errs r :
  requiredPass cfg schema input names errs = Return r -> early cfg r.
Proof.
  revert errs. induction names as [|k rest IH]; intros errs H; simpl in H.
  - discriminate.
  - apply bind_Return in H as [H | (fld & _ & H)];
      [now apply lift_not_Return in H|].
    destruct (required fld); [|eauto].
    apply bind_Return in H as [H | (p & _ & H)];
      [now apply lift_not_Return in H|].
    destruct (reads_undefined p || reads_null p && negb (nullable fld)); [|eauto].
    apply bind_Return in H as [H | (e & _ & H)]; [|eauto].
    apply checkpoint_Return in H as (-> & Hne & Hf). now exists (errs ++ [required_error k]).
Qed.

(** What a completed first loop has established. *)
Lemma requiredPass_Next names errs errs' :
  requiredPass cfg schema input names errs = Next errs' ->
  exists more,
    errs' = errs ++ more /\
    forall k, In k names ->
      exists fld, schema_get schema k = Some fld /\
        (required fld = false \/
         exists p, js_read input k = Some p /\
           (reads_missing fld p = false \/
            In (required_error k) more /\ is_first cfg = false)).
Proof.
  revert errs. induction names as [|k rest IH]; intros errs H; simpl in H.
  - inversion H. exists []. rewrite app_nil_r. split; [reflexivity|intros ? []].
  - apply bind_Next in H as (fld & Hfld & H). apply lift_Next in Hfld.
    destruct (required fld) eqn:Hreq.
    + apply bind_Next in H as (v & Hv & H). apply lift_Next in Hv.
      destruct (reads_undefined v || reads_null v && negb (nullable fld)) eqn:Hm.
      * apply bind_Next in H as (e & Hc & H).
        apply checkpoint_Next in Hc as [-> Hmode].
        apply IH in H as (more & -> & Hrest).
        exists (required_error k :: more). rewrite <- app_assoc. split; [reflexivity|].
        intros k' [<-|Hin].
        -- exists fld. split; [assumption|]. right. exists v. split; [assumption|].
           right. split; [now left|].
           destruct Hmode as [Hmode|Hmode]; [assumption|].
           now destruct errs.
        -- destruct (Hrest k' Hin) as (f' & Hf' & [Hr|(v' & Hv' & [Hn|[Hi Hmd]])]);
             exists f'; (split; [assumption|]); [now left|right; exists v'..];
             (split; [assumption|]); [now left|right; split; [now right|assumption]].
      * apply IH in H as (more & -> & Hrest). exists more. split; [reflexivity|].
        intros k' [<-|Hin]; [|now apply Hrest].
        exists fld. split; [assumption|]. right. exists v. split; [assumption|].
        left. unfold reads_missing. now rewrite Hreq, Hm.
    + apply IH in H as (more & -> & Hrest). exists more. split; [reflexivity|].
      intros k' [<-|Hin]; [|now apply Hrest].
      exists fld. split; [assumption|]. now left.
Qed.

(** A field that needs no report is skipped. *)
Lemma requiredPass_skip k rest errs fld :
  schema_get schema k = Some fld ->
  (required fld = false \/
   exists p, js_read input k = Some p /\ reads_missing fld p = false) ->
  requiredPass cfg schema input (k :: rest) errs =
  requiredPass cfg schema input rest errs.
Proof.
  intros Hfld H. simpl. rewrite Hfld. simpl.
  destruct (required fld) eqn:Hreq.
  - destruct H as [H|(v & Hv & Hm)]; [discriminate|].
    rewrite Hv. simpl. unfold reads_missing in Hm. rewrite Hreq in Hm.
    simpl in Hm. now rewrite Hm.
  - reflexivity.
Qed.

Lemma requiredPass_hit k rest errs fld p :
  schema_get schema k = Some fld ->
  js_read input k = Some p ->
  reads_missing fld p = true ->
  requiredPass cfg schema input (k :: rest) errs =
  (errs' <- checkpoint cfg (errs ++ [required_error k]) ;;
   requiredPass cfg schema input rest errs').
Proof.
  intros Hfld Hv Hm. simpl. rewrite Hfld. simpl.
  unfold reads_missing in Hm. apply andb_true_iff in Hm as [-> Hm].
  rewrite Hv. simpl. now rewrite Hm.
Qed.

End PassFacts.

Section FieldPassFacts.

Variable cfg : Config.
Variable schema : SchemaDefinition.
Variable vfo : string -> value -> option (option (list ValidationError)).
Variable input : value.

Local Abbreviation verdict_of := (verdict cfg schema vfo input).
Local Abbreviation loop := (fieldPass cfg schema vfo input).

(** One iteration of the second loop. *)
Lemma fieldPass_step k rest errs res :
  loop (k :: rest) (errs, res) =
  match verdict_of k with
  | None => Throw
  | Some (fe, ov) =>
      errs' <- (match fe with
                | [] => Next errs
                | _ :: _ => checkpoint cfg (errs ++ fe)
                end) ;;
      loop rest
        (errs', match ov with Some w => obj_set res k w | None => res end)
  end.
Proof.
  unfold verdict. simpl.
  destruct (js_get input k) as [v|]; simpl.
  - destruct (schema_get schema k) as [fld|]; simpl.
    + destruct (vfo k v) as [[fe|]|]; simpl; try reflexivity.
      destruct fe; reflexivity.
    + destruct (strictMode cfg); reflexivity.
  - destruct (schema_get schema k); reflexivity.
Qed.

Lemma fieldPass_Return names st r :
  loop names st = Return r -> early cfg r.
Proof.
  revert st. induction names as [|k rest IH]; intros [errs res] H.
  - discriminate.
  - rewrite fieldPass_step in H.
    destruct (verdict_of k) as [[fe ov]|]; [|discriminate].
    apply bind_Return in H as [H | (e & _ & H)]; [|eauto].
    destruct fe as [|e0 fe]; [discriminate|].
    apply checkpoint_Return in H as (-> & Hne & Hf).
    now exists (errs ++ e0 :: fe).
Qed.

(** What a completed second loop has established. *)
Lemma fieldPass_Next names errs res errs' res' :
  loop names (errs, res) = Next (errs', res') ->
  exists more,
    errs' = errs ++ more /\
    (forall k, ~ In k names -> assoc res' k = assoc res k) /\
    (forall k, In k names ->
       exists fe ov,
         verdict_of k = Some (fe, ov) /\ incl fe more /\
         (fe <> [] -> is_first cfg = false) /\
         match ov with
         | Some w => assoc res' k = Some w
         | None => assoc res' k = assoc res k
         end).
Proof.
  revert errs res. induction names as [|a rest IH]; intros errs res H.
  - inversion H. exists []. rewrite app_nil_r.
    split; [reflexivity|]. split; [reflexivity|intros ? []].
  - rewrite fieldPass_step in H.
    destruct (verdict_of a) as [[fe ov]|] eqn:Ha; [|discriminate].
    apply bind_Next in H as (errs1 & Hc & H).
    assert (Hc' : errs1 = errs ++ fe /\ (fe <> [] -> is_first cfg = false)).
    { destruct fe as [|e0 fe].
      - inversion Hc. rewrite app_nil_r. split; [reflexivity|congruence].
      - apply checkpoint_Next in Hc as [-> [Hm|Hm]]; [now split|].
        now destruct errs. }
    destruct Hc' as [-> Hmode]. clear Hc.
    apply IH in H as (more & -> & Hout & Hin).
    exists (fe ++ more). rewrite <- app_assoc.
    split; [reflexivity|]. split.
    + intros k Hk. simpl in Hk. rewrite Hout by tauto.
      destruct ov; [apply assoc_set_other; tauto | reflexivity].
    + intros k Hk.
      destruct (in_dec string_dec k rest) as [Hr|Hr].
      * destruct (Hin k Hr) as (fe' & ov' & Hv & Hincl & Hm & Hres).
        exists fe', ov'. split; [assumption|].
        split; [now apply incl_appr|]. split; [assumption|].
        destruct ov' as [w|]; [assumption|]. rewrite Hres.
        destruct (string_dec a k) as [<-|Hne].
        -- rewrite Ha in Hv. inversion Hv. subst. reflexivity.
        -- destruct ov; [now apply assoc_set_other | reflexivity].
      * destruct Hk as [<-|Hk]; [|contradiction].
        exists fe, ov. split; [assumption|].
        split; [now apply incl_appl, incl_refl|]. split; [assumption|].
        rewrite (Hout a Hr).
        destruct ov; [apply assoc_set_same | reflexivity].
Qed.

(** A second loop that meets no failing key completes without errors. *)
Lemma fieldPass_clean names res :
  (forall k, In k names -> exists ov, verdict_of k = Some ([], ov)) ->
  exists res', loop names ([], res) = Next ([], res').
Proof.
  revert res. induction names as [|a rest IH]; intros res H.
  - now exists res.
  - rewrite fieldPass_step.
    destruct (H a) as (ov & ->); [now left|]. simpl.
    apply IH. intros k Hk. apply H. now right.
Qed.

End FieldPassFacts.

Section DefaultPassFacts.

Variable schema : SchemaDefinition.

(** The third loop's step at [k], taken twice, is the step taken once. *)
Lemma defaulted_idem res k fld :
  assoc schema k = Some fld ->
  defaulted schema
    (if reads_undefined (obj_read res k) && has_default fld
     then obj_set res k (default_value fld) else res) k =
  defaulted schema res k.
Proof.
  intros Hf. unfold defaulted. rewrite Hf.
  destruct (reads_undefined (obj_read res k) && has_default fld) eqn:E.
  - rewrite obj_read_set_same, obj_get_set_same.
    now destruct (reads_undefined (Own (default_value fld)) && has_default fld).
  - now rewrite E.
Qed.

(** The third loop never raises on the schema's own keys, and leaves every
    key with its [defaulted] value. *)
Lemma defaultPass_spec names res :
  (forall k, In k names -> In k (map fst schema)) ->
  exists res',
    defaultPass schema names res = Next res' /\
    (forall k, In k names -> obj_get res' k = defaulted schema res k) /\
    (forall k, ~ In k names -> assoc res' k = assoc res k) /\
    (forall k, In k (map fst res') -> In k (map fst res) \/ In k names).
Proof.
  revert res. induction names as [|a rest IH]; intros res Hsub.
  - exists res. simpl. repeat split; auto. intros ? [].
  - assert (Ha : exists fld, assoc schema a = Some fld)
      by (apply assoc_In_keys, Hsub; now left).
    destruct Ha as (fld & Ha). simpl.
    rewrite (schema_get_own _ _ _ Ha). simpl.
    set (res1 := if reads_undefined (obj_read res a) && has_default fld
                 then obj_set res a (default_value fld) else res).
    destruct (IH res1) as (res' & Hrun & Hin & Hout & Hkeys).
    { intros k Hk. apply Hsub. now right. }
    assert (H1a : obj_get res1 a = defaulted schema res a).
    { unfold defaulted, res1. rewrite Ha.
      destruct (reads_undefined (obj_read res a) && has_default fld);
        [apply obj_get_set_same | reflexivity]. }
    assert (H1o : forall k, k <> a -> assoc res1 k = assoc res k).
    { intros k Hk. unfold res1.
      destruct (reads_undefined (obj_read res a) && has_default fld);
        [apply assoc_set_other; congruence | reflexivity]. }
    exists res'. split.
    { unfold res1 in Hrun.
      destruct (reads_undefined (obj_read res a) && has_default fld); exact Hrun. }
    split; [|split].
    + intros k Hk.
      destruct (in_dec string_dec k rest) as [Hr|Hr].
      * rewrite (Hin k Hr).
        destruct (string_dec k a) as [->|Hne].
        -- now apply defaulted_idem.
        -- unfold defaulted, obj_get, obj_read. now rewrite (H1o k Hne).
      * destruct Hk as [<-|Hk]; [|contradiction].
        unfold obj_get at 1. rewrite (Hout a Hr). exact H1a.
    + intros k Hk. simpl in Hk. rewrite Hout by tauto. apply H1o.
      intros ->. tauto.
    + intros k Hk. apply Hkeys in Hk as [Hk|Hk]; [|right; now right].
      unfold res1 in Hk.
      destruct (reads_undefined (obj_read res a) && has_default fld);
        [|now left].
      apply obj_set_keys in Hk as [Hk | ->]; [now left|right; now left].
Qed.

Lemma defaultPass_not_Return names res r :
  defaultPass schema names res <> Return r.
Proof.
  revert res. induction names as [|a rest IH]; intros res H; simpl in H.
  - discriminate.
  - apply bind_Return in H as [H|(fld & _ & H)];
      [now apply lift_not_Return in H|].
    destruct (reads_undefined (obj_read res a) && has_default fld);
      now apply IH in H.
Qed.

End DefaultPassFacts.

(** ** The shape of a result *)

(** [validate] either leaves through one of the early returns or runs its
    three loops to the end. *)
Lemma validate_body_inv cfg schema vfo input r :
  run (validate_body cfg schema vfo input) = Some r ->
  early cfg r \/
  exists errs1 errs2 res res',
    requiredPass cfg schema input (map fst schema) [] = Next errs1 /\
    fieldPass cfg schema vfo input (js_keys input) (errs1, []) = Next (errs2, res) /\
    defaultPass schema (map fst schema) res = Next res' /\
    r = finish errs2 res'.
Proof.
  intros H. apply run_Some in H. unfold validate_body in H.
  destruct (requiredPass cfg schema input (map fst schema) []) as [|r1|errs1] eqn:H1;
    simpl in H.
  - destruct H; discriminate.
  - left. apply requiredPass_Return in H1. destruct H as [H|H]; inversion H.
    now subst.
  - destruct (fieldPass cfg schema vfo input (js_keys input) (errs1, []))
      as [|r2|[errs2 res]] eqn:H2; simpl in H.
    + destruct H; discriminate.
    + left. apply fieldPass_Return in H2. destruct H as [H|H]; inversion H.
      now subst.
    + destruct (defaultPass schema (map fst schema) res) as [|r3|res'] eqn:H3;
        simpl in H.
      * destruct H; discriminate.
      * now apply defaultPass_not_Return in H3.
      * right. exists errs1, errs2, res, res'. repeat split; auto.
        destruct H as [H|H]; inversion H. reflexivity.
Qed.

Lemma validate_inv cfg schema input r :
  validate cfg schema input = Some r ->
  early cfg r \/
  exists errs1 errs2 res res',
    requiredPass cfg schema input (map fst schema) [] = Next errs1 /\
    fieldPass cfg schema (validateFieldIn cfg schema) input (js_keys input)
      (errs1, []) = Next (errs2, res) /\
    defaultPass schema (map fst schema) res = Next res' /\
    r = finish errs2 res'.
Proof. apply validate_body_inv. Qed.

Lemma early_invariant cfg r : early cfg r -> result_invariant r.
Proof.
  intros (errs & Hne & -> & _). unfold result_invariant, failed. simpl.
  repeat split; intros H; try discriminate; try congruence.
Qed.

Lemma finish_invariant errs res : result_invariant (finish errs res).
Proof.
  unfold result_invariant, finish. simpl.
  destruct errs as [|e errs]; simpl; repeat split; intros H;
    try discriminate; try congruence.
Qed.

Lemma valid_iff_no_errors cfg schema input r :
  validate cfg schema input = Some r -> (valid r = true <-> errors r = []).
Proof.
  intros H. apply validate_inv in H as [H | (errs1 & errs2 & res & res' & _ & _ & _ & ->)].
  - apply (early_invariant cfg r H).
  - apply finish_invariant.
Qed.

(** C1. For every schema, configuration and input, the result that
    [validate] returns has [valid] true exactly when its error list is empty,
    and exactly when its data is present (not [null]); when there are errors
    the data is [null], never the partially assembled object. *)
Theorem validate_result_invariant cfg schema input r :
  validate cfg schema input = Some r -> result_invariant r.
Proof.
  intros H. apply validate_inv in H as [H | (errs1 & errs2 & res & res' & _ & _ & _ & ->)].
  - exact (early_invariant cfg r H).
  - apply finish_invariant.
Qed.

Lemma validate_result_invariant_witness :
  validate (mkConfig true true All) [("name", plain TString)]
    (VObj [("name", VStr "x"); ("extra", VNum 1)]) =
  Some (mkResult false [unknown_error "extra" (VNum 1)] VNull) /\
  result_invariant (mkResult false [unknown_error "extra" (VNum 1)] VNull).
Proof.
  split; [reflexivity|].
  apply (validate_result_invariant (mkConfig true true All)
           [("name", plain TString)]
           (VObj [("name", VStr "x"); ("extra", VNum 1)])).
  reflexivity.
Defined.

(** A valid result went through the three loops without any error. *)
Lemma validate_valid_inv cfg schema input r :
  validate cfg schema input = Some r ->
  valid r = true ->
  exists res res',
    requiredPass cfg schema input (map fst schema) [] = Next [] /\
    fieldPass cfg schema (validateFieldIn cfg schema) input (js_keys input)
      ([], []) = Next ([], res) /\
    defaultPass schema (map fst schema) res = Next res' /\
    r = mkResult true [] (VObj res').
Proof.
  intros H Hv.
  apply validate_inv in H as [(errs & _ & -> & _) | (errs1 & errs2 & res & res' & H1 & H2 & H3 & ->)].
  - discriminate.
  - simpl in Hv. apply length_eqb_nil in Hv. subst errs2.
    destruct (fieldPass_Next _ _ _ _ _ _ _ _ _ H2) as (more & Hm & _).
    symmetry in Hm. apply app_eq_nil in Hm as [-> ->].
    exists res, res'. repeat split; assumption.
Qed.

(** ** [validateField] *)

(** The body of [validateField], with the nested validators as [validate]. *)
Lemma validateField_eq cfg fieldName v fieldSchema :
  validateField cfg fieldName v fieldSchema =
  if is_null v then
    if nullable fieldSchema then Some [] else Some [null_error fieldName]
  else if is_undefined v && negb (required fieldSchema) then Some []
  else if negb (validateType v fieldSchema) then
    Some [type_error fieldName v fieldSchema]
  else
    objErrors <-? objectErrors cfg fieldName v fieldSchema ;;
    arrErrors <-? arrayErrors cfg fieldName v fieldSchema ;;
    Some (objErrors ++ arrErrors ++ ruleChain cfg fieldName v (rules fieldSchema)).
Proof. destruct fieldSchema; reflexivity. Qed.

Lemma forEach_ext {A : Type} (f g : A -> nat -> option (list ValidationError)) l i :
  (forall x j, In x l -> f x j = g x j) -> forEach f l i = forEach g l i.
Proof.
  revert i. induction l as [|x rest IH]; intros i H; simpl; [reflexivity|].
  rewrite (H x i) by now left.
  rewrite (IH (S i)); [reflexivity|]. intros y j Hy. apply H. now right.
Qed.

(** The items are visited in index order. *)
Lemma forEach_app {A : Type} (f : A -> nat -> option (list ValidationError)) l1 l2 i :
  forEach f (l1 ++ l2) i =
  (e1 <-? forEach f l1 i ;;
   e2 <-? forEach f l2 (i + List.length l1) ;;
   Some (e1 ++ e2)).
Proof.
  revert i. induction l1 as [|x rest IH]; intros i; simpl.
  - rewrite Nat.add_0_r. destruct (forEach f l2 i); reflexivity.
  - destruct (f x i) as [e|]; simpl; [|reflexivity].
    rewrite IH.
    replace (i + S (List.length rest)) with (S i + List.length rest) by lia.
    destruct (forEach f rest (S i)) as [e1|]; simpl; [|reflexivity].
    destruct (forEach f l2 (S (i + List.length rest))) as [e2|]; simpl;
      [|reflexivity].
    now rewrite app_assoc.
Qed.


Lemma nested_errors_map path cfg schema input r :
  validate cfg schema input = Some r ->
  nested_errors path r = map (prefix_error path) (errors r).
Proof.
  intros H. apply valid_iff_no_errors in H as [H _].
  unfold nested_errors. destruct (valid r); simpl; [|reflexivity].
  now rewrite H.
Qed.

(** C5. The errors of a nested-object recursion are re-emitted under the
    path [<fieldName>.<nestedFieldName>], with the nested message and value
    unchanged, ahead of the field's own rule errors; and the nested required
    string [user.profile.firstName] missing from [{user:{profile:{}}}] is
    reported as the single error with path ["user.profile.firstName"] and
    message ["Field 'firstName' is required"]. *)
Theorem nested_object_errors_prefixed cfg fieldName o fieldSchema sub nestedResult :
  type fieldSchema = TObject ->
  fields fieldSchema = Some sub ->
  validate cfg sub (VObj o) = Some nestedResult ->
  validateField cfg fieldName (VObj o) fieldSchema =
    Some (map (fun e => mkError (fieldName ++ "." ++ field e) (message e) (value_of e))
              (errors nestedResult)
          ++ ruleChain cfg fieldName (VObj o) (rules fieldSchema)) /\
  validate default_config user_schema user_input =
    Some (mkResult false
            [mkError "user.profile.firstName" "Field 'firstName' is required"
                     VUndefined]
            VNull).
Proof.
  intros Ht Hf Hn. split; [|reflexivity].
  rewrite validateField_eq. simpl.
  unfold validateType, objectErrors, arrayErrors. rewrite Ht, Hf. simpl.
  rewrite Hn. simpl. rewrite (nested_errors_map _ _ _ _ _ Hn).
  destruct (items fieldSchema); reflexivity.
Qed.

Lemma nested_object_errors_prefixed_witness :
  validateField default_config "user" (VObj [("profile", VObj [])])
    (mkField TObject true false [] None None
       (Some [("profile",
               mkField TObject true false [] None None
                 (Some [("firstName", set_required (plain TString))]) None)])
       None) =
  Some [mkError "user.profile.firstName" "Field 'firstName' is required" VUndefined].
Proof.
  apply (nested_object_errors_prefixed default_config "user"
           [("profile", VObj [])]
           (mkField TObject true false [] None None
              (Some [("profile",
                      mkField TObject true false [] None None
                        (Some [("firstName", set_required (plain TString))]) None)])
              None)
           [("profile",
             mkField TObject true false [] None None
               (Some [("firstName", set_required (plain TString))]) None)]
           (mkResult false
              [mkError "profile.firstName" "Field 'firstName' is required" VUndefined]
              VNull));
    reflexivity.
Defined.

(** C6. Past the early exits, the errors of one field are those of the
    nested-object recursion, then those of the nested-array recursion with
    the items in index order, then those of the rule chain; and in "all"
    mode the array [tags] with items [{type:string, rules:[min(2)]}] and own
    rules [[unique()]] on [{tags:["a","bb","bb"]}] yields exactly the error
    of [tags[0]] followed by the error of [tags]. *)
Theorem field_errors_in_order cfg fieldName v fieldSchema errs :
  is_null v = false ->
  is_undefined v && negb (required fieldSchema) = false ->
  validateType v fieldSchema = true ->
  validateField cfg fieldName v fieldSchema = Some errs ->
  (exists objErrors arrErrors,
     objectErrors cfg fieldName v fieldSchema = Some objErrors /\
     arrayErrors cfg fieldName v fieldSchema = Some arrErrors /\
     errs = objErrors ++ arrErrors ++ ruleChain cfg fieldName v (rules fieldSchema) /\
     forall itemSchema before item after,
       type fieldSchema = TArray ->
       items fieldSchema = Some itemSchema ->
       v = VArr (before ++ item :: after) ->
       exists e1 e2 e3,
         forEach (itemErrors cfg fieldName itemSchema) before 0 = Some e1 /\
         itemErrors cfg fieldName itemSchema item (List.length before) = Some e2 /\
         forEach (itemErrors cfg fieldName itemSchema) after
           (S (List.length before)) = Some e3 /\
         arrErrors = e1 ++ e2 ++ e3) /\
  validate (mkConfig true false All) tags_schema tags_input =
    Some (mkResult false
            [mkError "tags[0]" "tags[0] must be at least 2 characters long" (VStr "a");
             mkError "tags" "tags must contain unique items"
                     (VArr [VStr "a"; VStr "bb"; VStr "bb"])]
            VNull).
Proof.
  intros Hn Hu Ht H. split; [|reflexivity].
  rewrite validateField_eq, Hn, Hu, Ht in H. simpl in H.
  destruct (objectErrors cfg fieldName v fieldSchema) as [objErrors|];
    simpl in H; [|discriminate].
  destruct (arrayErrors cfg fieldName v fieldSchema) as [arrErrors|] eqn:Ha;
    simpl in H; [|discriminate].
  inversion H. exists objErrors, arrErrors. repeat split.
  intros itemSchema before item after Hty Hit ->.
  unfold arrayErrors in Ha. rewrite Hit, Hty in Ha. simpl in Ha.
  rewrite forEach_app in Ha. simpl in Ha.
  destruct (forEach (itemErrors cfg fieldName itemSchema) before 0) as [e1|];
    simpl in Ha; [|discriminate].
  destruct (itemErrors cfg fieldName itemSchema item (List.length before)) as [e2|];
    simpl in Ha; [|discriminate].
  destruct (forEach (itemErrors cfg fieldName itemSchema) after
              (S (List.length before))) as [e3|]; simpl in Ha; [|discriminate].
  inversion Ha. exists e1, e2, e3. repeat split.
Qed.

Lemma field_errors_in_order_witness :
  exists objErrors arrErrors,
    objectErrors default_config "tags" (VArr [VStr "a"; VStr "bb"; VStr "bb"])
      (mkField TArray false false [rules.array_unique] None None None
         (Some (mkField TString false false [rules.string_min 2] None None None None)))
      = Some objErrors /\
    arrayErrors default_config "tags" (VArr [VStr "a"; VStr "bb"; VStr "bb"])
      (mkField TArray false false [rules.array_unique] None None None
         (Some (mkField TString false false [rules.string_min 2] None None None None)))
      = Some arrErrors /\
    [mkError "tags[0]" "tags[0] must be at least 2 characters long" (VStr "a");
     mkError "tags" "tags must contain unique items"
             (VArr [VStr "a"; VStr "bb"; VStr "bb"])] =
    objErrors ++ arrErrors ++
      ruleChain default_config "tags" (VArr [VStr "a"; VStr "bb"; VStr "bb"])
        [rules.array_unique].
Proof.
  destruct (field_errors_in_order default_config "tags"
              (VArr [VStr "a"; VStr "bb"; VStr "bb"])
              (mkField TArray false false [rules.array_unique] None None None
                 (Some (mkField TString false false [rules.string_min 2]
                          None None None None)))
              [mkError "tags[0]" "tags[0] must be at least 2 characters long" (VStr "a");
               mkError "tags" "tags must contain unique items"
                       (VArr [VStr "a"; VStr "bb"; VStr "bb"])]
              eq_refl eq_refl eq_refl eq_refl)
    as [(objErrors & arrErrors & Ho & Ha & He & _) _].
  exists objErrors, arrErrors. repeat split; assumption.
Defined.

(** ** The required-field pass *)

Lemma requiredPass_prefix cfg schema input before rest errs :
  (forall k, In k before ->
     exists fld, schema_get schema k = Some fld /\
       (required fld = false \/
        exists p, js_read input k = Some p /\ reads_missing fld p = false)) ->
  requiredPass cfg schema input (before ++ rest) errs =
  requiredPass cfg schema input rest errs.
Proof.
  induction before as [|k before IH]; intros H; [reflexivity|].
  destruct (H k) as (fld & Hfld & Hok); [now left|].
  rewrite <- app_comm_cons, (requiredPass_skip _ _ _ _ _ _ fld Hfld Hok).
  apply IH. intros k' Hk'. apply H. now right.
Qed.

(** In "all" mode the first loop reports the missing fields in the order of
    the names it is given. *)
Lemma requiredPass_all cfg schema input names errs :
  is_first cfg = false ->
  (forall k, In k names -> In k (map fst schema)) ->
  (forall k, js_read input k <> None) ->
  requiredPass cfg schema input names errs =
  Next (errs ++ map required_error (filter (reported_missing schema input) names)).
Proof.
  intros Hall Hsub Hread. revert errs.
  induction names as [|k rest IH]; intros errs.
  - simpl. now rewrite app_nil_r.
  - assert (Hk : exists fld, assoc schema k = Some fld)
      by (apply assoc_In_keys, Hsub; now left).
    destruct Hk as (fld & Hfld).
    assert (Hget := schema_get_own _ _ _ Hfld).
    destruct (js_read input k) as [p|] eqn:Hp; [|now apply Hread in Hp].
    assert (IH' := fun e => IH (fun k' Hk' => Hsub k' (or_intror Hk')) e).
    simpl filter. unfold reported_missing at 1. rewrite Hfld, Hp.
    destruct (reads_missing fld p) eqn:Hm.
    + rewrite (requiredPass_hit _ _ _ _ _ _ fld p Hget Hp Hm).
      rewrite (checkpoint_all _ _ Hall). simpl. rewrite IH'.
      now rewrite <- app_assoc.
    + rewrite (requiredPass_skip _ _ _ _ _ _ fld Hget); [apply IH'|].
      right. eauto.
Qed.



(** C10. In "all" mode a field that is required and not nullable, and whose
    value in the data is explicitly [null], is reported twice: as "is
    required" by the required-field pass and, later in the list, as "cannot
    be null" by the per-field pass. *)
Theorem required_null_reported_twice cfg schema input name fld r :
  is_first cfg = false ->
  assoc schema name = Some fld ->
  required fld = true ->
  nullable fld = false ->
  In name (js_keys input) ->
  js_get input name = Some VNull ->
  validate cfg schema input = Some r ->
  (exists l1 l2 l3,
     errors r =
     l1 ++ mkError name ("Field '" ++ name ++ "' is required") VUndefined
        :: l2 ++ mkError name ("Field '" ++ name ++ "' cannot be null") VNull
        :: l3) /\
  validate (mkConfig true false All) [("a", set_required (plain TString))]
    (VObj [("a", VNull)]) =
    Some (mkResult false
            [mkError "a" "Field 'a' is required" VUndefined;
             mkError "a" "Field 'a' cannot be null" VNull]
            VNull).
Proof.
  intros Hall Hfld Hreq Hnul Hkey Hv H. split; [|reflexivity].
  assert (Hget := schema_get_own _ _ _ Hfld).
  apply validate_inv in H
    as [(errs & _ & _ & Hf) | (errs1 & errs2 & res & res' & H1 & H2 & _ & ->)];
    [congruence|].
  apply requiredPass_Next in H1 as (more1 & -> & H1).
  destruct (H1 name) as (fld' & Hfld' & Hr).
  { apply assoc_In_keys. eauto. }
  rewrite Hget in Hfld'. inversion Hfld'. subst fld'.
  destruct Hr as [Hr | (p & Hp & Hr)]; [congruence|].
  destruct (js_read_keys input name Hkey) as (v0 & Hp0 & Hv0).
  rewrite Hv in Hv0. inversion Hv0. subst v0.
  rewrite Hp0 in Hp. inversion Hp. subst p.
  destruct Hr as [Hr | [Hr _]].
  { unfold reads_missing in Hr. rewrite Hreq, Hnul in Hr. discriminate. }
  apply fieldPass_Next in H2 as (more2 & -> & _ & H2).
  destruct (H2 name Hkey) as (fe & ov & Hvd & Hincl & _).
  unfold verdict in Hvd. rewrite Hv, Hget in Hvd. simpl in Hvd.
  rewrite (validateFieldIn_assoc _ _ _ _ _ Hfld) in Hvd. simpl in Hvd.
  rewrite validateField_eq in Hvd. simpl in Hvd. rewrite Hnul in Hvd.
  simpl in Hvd. inversion Hvd. subst fe ov.
  assert (Hn : In (null_error name) more2) by (apply Hincl; now left).
  apply in_split in Hr as (a & b & ->).
  apply in_split in Hn as (c & d & ->).
  exists a, (b ++ c), d. simpl. unfold required_error, null_error.
  rewrite <- app_assoc. simpl. now rewrite <- app_assoc.
Qed.

Lemma required_null_reported_twice_witness :
  exists l1 l2 l3,
    [required_error "a"; null_error "a"; type_error "n" (VStr "x") (plain TNumber)] =
    l1 ++ required_error "a" :: l2 ++ null_error "a" :: l3.
Proof.
  apply (required_null_reported_twice (mkConfig true false All)
           [("a", set_required (plain TString)); ("n", plain TNumber)]
           (VObj [("a", VNull); ("n", VStr "x")])
           "a" (set_required (plain TString))
           (mkResult false
              [required_error "a"; null_error "a";
               type_error "n" (VStr "x") (plain TNumber)] VNull));
    try reflexivity.
  simpl. now left.
Defined.

(** ** The assembled output *)

Lemma verdict_clean cfg schema input k ov :
  verdict cfg schema (validateFieldIn cfg schema) input k = Some ([], ov) <->
  exists v, js_get input k = Some v /\
    match schema_get schema k with
    | None => strictMode cfg = false /\ ov = Some v
    | Some fld =>
        validateField cfg k v fld = Some [] /\ ov = Some (stored cfg fld v)
    end.
Proof.
  unfold verdict.
  destruct (js_get input k) as [v|]; simpl.
  - rewrite validateFieldIn_get.
    destruct (schema_get schema k) as [fld|]; simpl.
    + destruct (validateField cfg k v fld) as [[|e fe]|] eqn:E; simpl; split;
        try discriminate;
        try (intros (v' & Hv & H & _); inversion Hv; subst v'; congruence).
      * intros H. inversion H. exists v. repeat split. exact E.
      * intros (v' & Hv & _ & ->). inversion Hv. reflexivity.
    + destruct (strictMode cfg); split; try discriminate.
      * intros (v' & _ & H & _). discriminate.
      * intros H. inversion H. exists v. repeat split.
      * intros (v' & Hv & _ & ->). inversion Hv. reflexivity.
  - split; [discriminate | intros (v & H & _); discriminate].
Qed.

(** The output of a valid result, key by key. *)
Lemma valid_output cfg schema input r :
  validate cfg schema input = Some r ->
  valid r = true ->
  exists res res',
    requiredPass cfg schema input (map fst schema) [] = Next [] /\
    fieldPass cfg schema (validateFieldIn cfg schema) input (js_keys input)
      ([], []) = Next ([], res) /\
    defaultPass schema (map fst schema) res = Next res' /\
    r = mkResult true [] (VObj res') /\
    (forall k, In k (js_keys input) ->
       exists v, js_get input k = Some v /\
         match schema_get schema k with
         | None => strictMode cfg = false /\ assoc res k = Some v
         | Some fld =>
             validateField cfg k v fld = Some [] /\
             assoc res k = Some (stored cfg fld v)
         end) /\
    (forall k, ~ In k (js_keys input) -> assoc res k = None) /\
    (forall k, obj_get res' k = defaulted schema res k) /\
    (forall k, In k (map fst res') -> In k (js_keys input) \/ In k (map fst schema)).
Proof.
  intros H Hv.
  destruct (validate_valid_inv _ _ _ _ H Hv) as (res & res' & H1 & H2 & H3 & ->).
  exists res, res'. do 4 (split; [assumption || reflexivity|]).
  destruct (fieldPass_Next _ _ _ _ _ _ _ _ _ H2) as (more & Hm & Hout & Hin).
  simpl in Hm. subst more.
  destruct (defaultPass_spec schema (map fst schema) res (fun k Hk => Hk))
    as (res'' & H3' & Hd & Hdo & Hdk).
  rewrite H3 in H3'. inversion H3'. subst res''. clear H3'.
  split; [|split; [|split]].
  - intros k Hk. destruct (Hin k Hk) as (fe & ov & Hvd & Hincl & _ & Hres).
    assert (fe = []) by (destruct fe as [|e fe]; [reflexivity|]; destruct (Hincl e); now left).
    subst fe. apply verdict_clean in Hvd as (v & Hv' & Hvd). exists v.
    split; [assumption|].
    destruct (schema_get schema k) as [fld|]; destruct Hvd as (Ha & ->); now split.
  - intros k Hk. now rewrite (Hout k Hk).
  - intros k. destruct (in_dec string_dec k (map fst schema)) as [Hk|Hk].
    + now apply Hd.
    + unfold defaulted, obj_get. rewrite (Hdo k Hk).
      apply assoc_None_keys in Hk. now rewrite Hk.
  - intros k Hk. apply Hdk in Hk as [Hk|Hk]; [left|now right].
    destruct (in_dec string_dec k (js_keys input)) as [Hi|Hi]; [assumption|].
    apply assoc_In_keys in Hk as (w & Hw). rewrite (Hout k Hi) in Hw. discriminate.
Qed.




(** ** Nullable fields and defaults *)




Lemma reads_undefined_own o k :
  member k object_members = false ->
  reads_undefined (obj_read o k) = is_undefined (obj_get o k).
Proof.
  intros H. unfold obj_read, obj_get, chain_read.
  destruct (assoc o k); [reflexivity|]. rewrite H. reflexivity.
Qed.

Lemma reads_undefined_get o k :
  reads_undefined (obj_read o k) = true -> obj_get o k = VUndefined.
Proof.
  unfold obj_read, obj_get. destruct (assoc o k) as [v|]; [|reflexivity].
  now destruct v.
Qed.

Lemma reads_defined_get o k :
  obj_get o k <> VUndefined -> reads_undefined (obj_read o k) = false.
Proof.
  unfold obj_read, obj_get. destruct (assoc o k) as [v|]; [|congruence].
  destruct v; simpl; congruence.
Qed.

(** The third loop leaves alone what reads as defined. *)
Lemma defaultPass_defined schema names res res' k :
  defaultPass schema names res = Next res' ->
  reads_undefined (obj_read res k) = false ->
  assoc res' k = assoc res k.
Proof.
  revert res. induction names as [|a rest IH]; intros res H Hk; simpl in H.
  - now inversion H.
  - apply bind_Next in H as (fld & _ & H).
    destruct (reads_undefined (obj_read res a) && has_default fld) eqn:E.
    + apply andb_true_iff in E as [E _].
      assert (Hne : a <> k) by (intros ->; congruence).
      rewrite (IH _ H).
      * now apply assoc_set_other.
      * unfold obj_read. rewrite (assoc_set_other _ _ _ _ Hne). exact Hk.
    + now apply (IH _ H).
Qed.



(** ** Errors do not depend on [transformEnabled] *)

Lemma assoc_Some_In {A : Type} (l : list (string * A)) key a :
  assoc l key = Some a -> exists k, In (k, a) l.
Proof.
  induction l as [|[k0 a0] rest IH]; simpl; [discriminate|].
  destruct (String.eqb k0 key).
  - intros H. inversion H. subst. eauto.
  - intros H. destruct (IH H) as (k & Hk). eauto.
Qed.

Lemma schema_get_In schema key fld :
  schema_get schema key = Some fld ->
  (exists k, In (k, fld) schema) \/ fld = inherited_field.
Proof.
  intros H. apply schema_get_cases in H as [H | (_ & _ & H)]; [left|now right].
  now apply assoc_Some_In in H.
Qed.

Lemma nested_errors_report path r1 r2 :
  report r1 = report r2 -> nested_errors path r1 = nested_errors path r2.
Proof. unfold report, nested_errors. intros H. inversion H. reflexivity. Qed.

Lemma nested_report_bind path (m1 m2 : option ValidationResult) :
  option_map report m1 = option_map report m2 ->
  (r <-? m1 ;; Some (nested_errors path r)) =
  (r <-? m2 ;; Some (nested_errors path r)).
Proof.
  destruct m1 as [r1|], m2 as [r2|]; simpl; intros H; try discriminate;
    [|reflexivity].
  inversion H. f_equal. apply nested_errors_report. unfold report. congruence.
Qed.

Section SamePolicy.

Variables cfg1 cfg2 : Config.
Hypothesis policy : same_policy cfg1 cfg2.

Lemma is_first_same : is_first cfg1 = is_first cfg2.
Proof. unfold is_first. destruct policy as [_ ->]. reflexivity. Qed.

Lemma checkpoint_same errs : checkpoint cfg1 errs = checkpoint cfg2 errs.
Proof. unfold checkpoint. now rewrite is_first_same. Qed.

Lemma ruleChain_same fieldName v rs :
  ruleChain cfg1 fieldName v rs = ruleChain cfg2 fieldName v rs.
Proof.
  induction rs as [|rule rest IH]; simpl; [reflexivity|].
  rewrite is_first_same, IH. reflexivity.
Qed.

Lemma requiredPass_same schema input names errs :
  requiredPass cfg1 schema input names errs =
  requiredPass cfg2 schema input names errs.
Proof.
  revert errs. induction names as [|k rest IH]; intros errs; simpl;
    [reflexivity|].
  destruct (schema_get schema k) as [fld|]; simpl; [|reflexivity].
  destruct (required fld); [|apply IH].
  destruct (js_read input k) as [v|]; simpl; [|reflexivity].
  destruct (reads_undefined v || reads_null v && negb (nullable fld)); [|apply IH].
  rewrite checkpoint_same.
  destruct (checkpoint cfg2 (errs ++ [required_error k])); simpl;
    try reflexivity.
  apply IH.
Qed.

Section Loops.

Variable schema : SchemaDefinition.
Variables vfo1 vfo2 : string -> value -> option (option (list ValidationError)).
Hypothesis vfo_same : forall k v, vfo1 k v = vfo2 k v.
Variable input : value.

Lemma verdict_same k :
  option_map fst (verdict cfg1 schema vfo1 input k) =
  option_map fst (verdict cfg2 schema vfo2 input k).
Proof.
  unfold verdict. destruct (js_get input k) as [v|]; simpl; [|reflexivity].
  rewrite vfo_same. destruct policy as [-> _].
  destruct (schema_get schema k) as [fld|].
  - destruct (vfo2 k v) as [[[|e fe]|]|]; reflexivity.
  - destruct (strictMode cfg2); reflexivity.
Qed.

Lemma fieldPass_same names errs res1 res2 :
  match fieldPass cfg1 schema vfo1 input names (errs, res1),
        fieldPass cfg2 schema vfo2 input names (errs, res2) with
  | Throw, Throw => True
  | Return r1, Return r2 => r1 = r2
  | Next (e1, _), Next (e2, _) => e1 = e2
  | _, _ => False
  end.
Proof.
  revert errs res1 res2. induction names as [|k rest IH]; intros errs res1 res2.
  - reflexivity.
  - rewrite !fieldPass_step. assert (Hv := verdict_same k).
    destruct (verdict cfg1 schema vfo1 input k) as [[fe1 ov1]|],
             (verdict cfg2 schema vfo2 input k) as [[fe2 ov2]|];
      simpl in Hv; try discriminate; [|exact I].
    inversion Hv. subst fe2.
    destruct fe1 as [|e fe]; simpl; [apply IH|].
    rewrite checkpoint_same.
    destruct (checkpoint cfg2 (errs ++ e :: fe)); simpl;
      [exact I | reflexivity | apply IH].
Qed.

Lemma validate_body_same :
  option_map report (run (validate_body cfg1 schema vfo1 input)) =
  option_map report (run (validate_body cfg2 schema vfo2 input)).
Proof.
  unfold validate_body. rewrite requiredPass_same.
  destruct (requiredPass cfg2 schema input (map fst schema) []) as [|r|errs1];
    simpl; try reflexivity.
  assert (H := fieldPass_same (js_keys input) errs1 [] []).
  destruct (fieldPass cfg1 schema vfo1 input (js_keys input) (errs1, []))
    as [|r1|[e1 res1]],
           (fieldPass cfg2 schema vfo2 input (js_keys input) (errs1, []))
    as [|r2|[e2 res2]]; simpl; try contradiction; try reflexivity.
  - now subst.
  - subst e2.
    destruct (defaultPass_spec schema (map fst schema) res1 (fun k Hk => Hk))
      as (res1' & -> & _).
    destruct (defaultPass_spec schema (map fst schema) res2 (fun k Hk => Hk))
      as (res2' & -> & _).
    reflexivity.
Qed.

End Loops.

Lemma validateField_same_policy fieldSchema :
  (forall fieldName v,
     validateField cfg1 fieldName v fieldSchema =
     validateField cfg2 fieldName v fieldSchema) /\
  (forall sub input,
     fields fieldSchema = Some sub ->
     option_map report (validate cfg1 sub input) =
     option_map report (validate cfg2 sub input)).
Proof.
  induction fieldSchema as [fieldSchema IHfields IHitems] using SchemaField_ind.
  assert (Hsub : forall sub input,
             fields fieldSchema = Some sub ->
             option_map report (validate cfg1 sub input) =
             option_map report (validate cfg2 sub input)).
  { intros sub input Hf. apply validate_body_same. intros k v.
    rewrite !validateFieldIn_get.
    destruct (schema_get sub k) as [fld|] eqn:Hk; [|reflexivity]. simpl. f_equal.
    apply schema_get_In in Hk as [(k' & Hk) | ->];
      [|now rewrite !validateField_inherited].
    specialize (IHfields sub Hf). rewrite Forall_forall in IHfields.
    now apply (IHfields (k', fld) Hk). }
  split; [|exact Hsub].
  intros fieldName v. rewrite !validateField_eq.
  destruct (is_null v); [reflexivity|].
  destruct (is_undefined v && negb (required fieldSchema)); [reflexivity|].
  destruct (negb (validateType v fieldSchema)); [reflexivity|].
  assert (Ho : objectErrors cfg1 fieldName v fieldSchema =
               objectErrors cfg2 fieldName v fieldSchema).
  { unfold objectErrors. destruct (fields fieldSchema) as [sub|]; [|reflexivity].
    destruct (is_object_type (type fieldSchema) && typeof_object v);
      [|reflexivity].
    apply nested_report_bind. now apply Hsub. }
  assert (Ha : arrayErrors cfg1 fieldName v fieldSchema =
               arrayErrors cfg2 fieldName v fieldSchema).
  { unfold arrayErrors. destruct (items fieldSchema) as [itemSchema|] eqn:Hi;
      [|reflexivity].
    destruct v; try reflexivity.
    destruct (is_array_type (type fieldSchema)); [|reflexivity].
    apply forEach_ext. intros item index _.
    destruct (IHitems itemSchema eq_refl) as [IHf IHs].
    unfold itemErrors. destruct (fields itemSchema) as [sub|] eqn:Hf;
      [|apply IHf].
    destruct (is_object_type (type itemSchema)); [|apply IHf].
    apply nested_report_bind. now apply IHs. }
  rewrite Ho, Ha, ruleChain_same. reflexivity.
Qed.

Lemma validate_same_policy schema input :
  option_map report (validate cfg1 schema input) =
  option_map report (validate cfg2 schema input).
Proof.
  apply validate_body_same. intros k v. rewrite !validateFieldIn_get.
  destruct (schema_get schema k) as [fld|]; [|reflexivity]. simpl. f_equal.
  apply validateField_same_policy.
Qed.

End SamePolicy.

(** ** Validating an output again *)

Lemma without_transforms_policy cfg : same_policy (without_transforms cfg) cfg.
Proof. split; reflexivity. Qed.

Lemma enumerable_object o : enumerable (VObj o).
Proof.
  intros k p H Hk. simpl in *. inversion H.
  now apply obj_read_none, assoc_None_keys.
Qed.

Lemma stored_plain cfg fld v :
  has_transform cfg fld = false -> stored cfg fld v = v.
Proof.
  unfold has_transform, stored.
  destruct (transform fld), (transformEnabled cfg); simpl; congruence.
Qed.

(** The third loop leaves alone a key under which the schema declares no
    default. *)
Lemma defaultPass_no_default schema names res res' k :
  defaultPass schema names res = Next res' ->
  (forall fld, schema_get schema k = Some fld -> has_default fld = false) ->
  assoc res' k = assoc res k.
Proof.
  revert res. induction names as [|a rest IH]; intros res H Hk; simpl in H.
  - now inversion H.
  - apply bind_Next in H as (fld & Hfld & H). apply lift_Next in Hfld.
    destruct (reads_undefined (obj_read res a) && has_default fld) eqn:E.
    + apply andb_true_iff in E as [_ E].
      assert (Hne : a <> k).
      { intros ->. rewrite (Hk fld Hfld) in E. discriminate. }
      rewrite (IH _ H Hk). now apply assoc_set_other.
    + now apply (IH _ H).
Qed.

(** Every field of the schema passes its own checks on the output of a
    valid result. *)
Lemma output_field_passes cfg schema input r res' k fld :
  enumerable input ->
  validate cfg schema input = Some r ->
  valid r = true ->
  data r = VObj res' ->
  produced_values_pass cfg schema (data r) ->
  assoc schema k = Some fld ->
  reads_missing fld (obj_read res' k) = false /\
  (In k (map fst res') ->
   validateField (without_transforms cfg) k (obj_get res' k) fld = Some []).
Proof.
  intros Henum H Hvalid Hdata Hpass Hfld.
  assert (Hget := schema_get_own _ _ _ Hfld).
  destruct (has_transform cfg fld || has_default fld) eqn:Hprod.
  { destruct (Hpass k fld (obj_get res' k)) as [Hm Hok];
      [assumption.. | rewrite Hdata; reflexivity |].
    split; [|intros _; exact Hok].
    unfold obj_read. unfold obj_get in Hm.
    destruct (assoc res' k) as [w|]; [exact Hm|].
    unfold missing_required in Hm. simpl in Hm. rewrite andb_true_r in Hm.
    unfold reads_missing. now rewrite Hm. }
  apply orb_false_iff in Hprod as [Htr Hdef].
  destruct (valid_output _ _ _ _ H Hvalid)
    as (res & res0 & H1 & _ & H3 & -> & Hin & Hout & Hd & _).
  simpl in Hdata. inversion Hdata. subst res0. clear Hdata.
  assert (Hw : assoc res' k = assoc res k).
  { apply defaultPass_no_default with (1 := H3). intros fld' Hfld'.
    rewrite Hget in Hfld'. inversion Hfld'. now subst. }
  apply requiredPass_Next in H1 as (more & Hm & H1).
  symmetry in Hm. simpl in Hm. subst more.
  destruct (H1 k) as (fld' & Hfld' & Hreq).
  { apply assoc_In_keys. eauto. }
  rewrite Hget in Hfld'. inversion Hfld'. subst fld'. clear Hfld'.
  unfold obj_read, obj_get. rewrite Hw.
  rewrite (proj1 (validateField_same_policy _ _ (without_transforms_policy cfg) fld)).
  destruct (in_dec string_dec k (js_keys input)) as [Hk|Hk].
  - destruct (Hin k Hk) as (v & Hv & Hres). rewrite Hget in Hres.
    destruct Hres as [Hok Hres]. rewrite (stored_plain _ _ _ Htr) in Hres.
    rewrite Hres. split; [|intros _; exact Hok].
    destruct Hreq as [Hreq | (p & Hp & [Hreq | [[] _]])].
    + unfold reads_missing. now rewrite Hreq.
    + destruct (js_read_keys input k Hk) as (v0 & Hp0 & Hv0).
      rewrite Hv in Hv0. inversion Hv0. subst v0.
      rewrite Hp0 in Hp. inversion Hp. now subst p.
  - rewrite (Hout k Hk). split.
    + destruct Hreq as [Hreq | (p & Hp & [Hreq | [[] _]])].
      * unfold reads_missing. now rewrite Hreq.
      * now rewrite <- (Henum k p Hp Hk).
    + intros Hin'. apply assoc_In_keys in Hin' as (w & Hw').
      rewrite Hw, (Hout k Hk) in Hw'. discriminate.
Qed.




(** ** "first" mode against "all" mode *)

Lemma nested_errors_length path cfg schema input r :
  validate cfg schema input = Some r ->
  List.length (nested_errors path r) = List.length (errors r).
Proof.
  intros H. rewrite (nested_errors_map _ _ _ _ _ H). apply length_map.
Qed.

Section FirstAgainstAll.

Variables cfgF cfgA : Config.
Hypothesis modeF : is_first cfgF = true.
Hypothesis modeA : is_first cfgA = false.
Hypothesis strict_same : strictMode cfgF = strictMode cfgA.

Lemma ruleChain_first_shorter fieldName v rs :
  List.length (ruleChain cfgF fieldName v rs) <=
  List.length (ruleChain cfgA fieldName v rs).
Proof.
  induction rs as [|rule rest IH]; simpl; [lia|].
  rewrite modeF, modeA. destruct (rule_validate rule v); simpl; lia.
Qed.

Lemma forEach_first_shorter {A : Type}
    (f g : A -> nat -> option (list ValidationError)) l i ea :
  (forall x j e, In x l -> g x j = Some e ->
     exists e', f x j = Some e' /\ List.length e' <= List.length e) ->
  forEach g l i = Some ea ->
  exists ef, forEach f l i = Some ef /\ List.length ef <= List.length ea.
Proof.
  revert i ea. induction l as [|x rest IH]; intros i ea Hfg H; simpl in *.
  - inversion H. exists []. split; [reflexivity | simpl; lia].
  - destruct (g x i) as [e|] eqn:Hg; simpl in H; [|discriminate].
    destruct (forEach g rest (S i)) as [es|] eqn:Hr; simpl in H; [|discriminate].
    inversion H. subst ea.
    destruct (Hfg x i e (or_introl eq_refl) Hg) as (e' & -> & He).
    destruct (IH (S i) es) as (es' & -> & Hes); [|exact Hr|].
    { intros y j e0 Hy. apply Hfg. now right. }
    exists (e' ++ es'). split; [reflexivity|]. rewrite !length_app. lia.
Qed.

Lemma requiredPass_first_shorter schema input names ea ea' :
  requiredPass cfgA schema input names ea = Next ea' ->
  requiredPass cfgF schema input names [] = Next [] \/
  exists k, requiredPass cfgF schema input names [] =
              Return (failed [required_error k]) /\
            List.length ea + 1 <= List.length ea'.
Proof.
  revert ea. induction names as [|k rest IH]; intros ea H; simpl in *.
  - now left.
  - destruct (schema_get schema k) as [fld|]; simpl in *; [|discriminate].
    destruct (required fld); [|eauto].
    destruct (js_read input k) as [v|]; simpl in *; [|discriminate].
    destruct (reads_undefined v || reads_null v && negb (nullable fld)); [|eauto].
    rewrite (checkpoint_all _ _ modeA) in H. simpl in H.
    rewrite checkpoint_first by (assumption || discriminate). simpl.
    right. exists k. split; [reflexivity|].
    apply requiredPass_Next in H as (more & -> & _).
    rewrite !length_app. simpl. lia.
Qed.

Section Loops.

Variable schema : SchemaDefinition.
Variables vfoF vfoA : string -> value -> option (option (list ValidationError)).
Hypothesis vfo_shorter :
  forall k v ea, vfoA k v = Some (Some ea) ->
    exists ef, vfoF k v = Some (Some ef) /\ List.length ef <= List.length ea.
Variable input : value.

Lemma verdict_first_shorter k feA ovA :
  verdict cfgA schema vfoA input k = Some (feA, ovA) ->
  exists feF ovF,
    verdict cfgF schema vfoF input k = Some (feF, ovF) /\
    List.length feF <= List.length feA.
Proof.
  unfold verdict. destruct (js_get input k) as [v|]; simpl; [|discriminate].
  rewrite strict_same. destruct (schema_get schema k) as [fld|].
  - destruct (vfoA k v) as [[ea|]|] eqn:Ha; simpl; try discriminate.
    destruct (vfo_shorter k v ea Ha) as (ef & -> & Hle). simpl.
    intros H.
    assert (List.length ea <= List.length feA)
      by (destruct ea; inversion H; simpl; lia).
    destruct ef; eexists _, _; (split; [reflexivity|]); simpl in *; lia.
  - destruct (strictMode cfgA); intros H; inversion H; eexists _, _;
      (split; [reflexivity|]); simpl; lia.
Qed.

Lemma fieldPass_first_shorter names ea resA ea' resA' resF :
  fieldPass cfgA schema vfoA input names (ea, resA) = Next (ea', resA') ->
  (exists resF',
     fieldPass cfgF schema vfoF input names ([], resF) = Next ([], resF')) \/
  (exists fe,
     fieldPass cfgF schema vfoF input names ([], resF) = Return (failed fe) /\
     List.length ea + List.length fe <= List.length ea').
Proof.
  revert ea resA resF. induction names as [|k rest IH]; intros ea resA resF H.
  - left. now exists resF.
  - rewrite fieldPass_step in *.
    destruct (verdict cfgA schema vfoA input k) as [[feA ovA]|] eqn:Hv;
      [|discriminate].
    destruct (verdict_first_shorter k feA ovA Hv) as (feF & ovF & -> & Hle).
    apply bind_Next in H as (ea1 & Hc & H).
    assert (Hea1 : ea1 = ea ++ feA).
    { destruct feA; [inversion Hc; now rewrite app_nil_r|].
      rewrite (checkpoint_all _ _ modeA) in Hc. now inversion Hc. }
    subst ea1.
    destruct feF as [|e feF]; simpl.
    + destruct (IH _ _ (match ovF with
                        | Some w => obj_set resF k w
                        | None => resF
                        end) H) as [Hn | (fe & Hr & Hl)]; [now left|].
      right. exists fe. split; [assumption|]. rewrite length_app in Hl. lia.
    + rewrite checkpoint_first by (assumption || discriminate). simpl.
      right. exists (e :: feF). split; [reflexivity|].
      apply fieldPass_Next in H as (more & -> & _).
      rewrite !length_app. simpl in *. lia.
Qed.

Lemma validate_body_first_shorter ra :
  run (validate_body cfgA schema vfoA input) = Some ra ->
  exists rf,
    run (validate_body cfgF schema vfoF input) = Some rf /\
    List.length (errors rf) <= List.length (errors ra).
Proof.
  intros H.
  apply validate_body_inv in H
    as [(errs & _ & _ & Hf) | (ea1 & ea2 & resA & resA' & H1 & H2 & _ & ->)];
    [congruence|].
  unfold validate_body.
  assert (Hlen := fieldPass_Next _ _ _ _ _ _ _ _ _ H2).
  destruct Hlen as (more & Hmore & _).
  destruct (requiredPass_first_shorter _ _ _ _ _ H1) as [-> | (k & -> & Hl)];
    simpl.
  - destruct (fieldPass_first_shorter _ _ _ _ _ [] H2)
      as [(resF & ->) | (fe & -> & Hl)]; simpl.
    + destruct (defaultPass_spec schema (map fst schema) resF (fun k Hk => Hk))
        as (resF' & -> & _).
      simpl. eexists. split; [reflexivity|]. simpl. lia.
    + eexists. split; [reflexivity|]. simpl. lia.
  - eexists. split; [reflexivity|]. subst ea2. simpl in *.
    rewrite length_app. lia.
Qed.

End Loops.

Lemma validateField_first_shorter fieldSchema :
  (forall fieldName v ea,
     validateField cfgA fieldName v fieldSchema = Some ea ->
     exists ef, validateField cfgF fieldName v fieldSchema = Some ef /\
                List.length ef <= List.length ea) /\
  (forall sub input ra,
     fields fieldSchema = Some sub ->
     validate cfgA sub input = Some ra ->
     exists rf, validate cfgF sub input = Some rf /\
                List.length (errors rf) <= List.length (errors ra)).
Proof.
  induction fieldSchema as [fieldSchema IHfields IHitems] using SchemaField_ind.
  assert (Hsub : forall sub input ra,
             fields fieldSchema = Some sub ->
             validate cfgA sub input = Some ra ->
             exists rf, validate cfgF sub input = Some rf /\
                        List.length (errors rf) <= List.length (errors ra)).
  { intros sub input ra Hf. apply validate_body_first_shorter.
    intros k v ea. rewrite !validateFieldIn_get.
    destruct (schema_get sub k) as [fld|] eqn:Hk; simpl; [|discriminate].
    intros H. inversion H as [H']. clear H.
    apply schema_get_In in Hk as [(k' & Hk) | ->].
    2:{ rewrite validateField_inherited in *. inversion H'. eauto. }
    specialize (IHfields sub Hf). rewrite Forall_forall in IHfields.
    destruct (proj1 (IHfields (k', fld) Hk) k v ea H') as (ef & Hef & Hle).
    simpl in Hef. rewrite Hef. eauto. }
  split; [|exact Hsub].
  intros fieldName v ea. rewrite !validateField_eq.
  destruct (is_null v); [intros H; inversion H; eauto|].
  destruct (is_undefined v && negb (required fieldSchema));
    [intros H; inversion H; eauto|].
  destruct (negb (validateType v fieldSchema)); [intros H; inversion H; eauto|].
  destruct (objectErrors cfgA fieldName v fieldSchema) as [oa|] eqn:Ho;
    simpl; [|discriminate].
  destruct (arrayErrors cfgA fieldName v fieldSchema) as [aa|] eqn:Ha;
    simpl; [|discriminate].
  intros H. inversion H. subst ea. clear H.
  assert (Ho' : exists ofs, objectErrors cfgF fieldName v fieldSchema = Some ofs /\
                            List.length ofs <= List.length oa).
  { unfold objectErrors in *. destruct (fields fieldSchema) as [sub|];
      [|inversion Ho; eauto].
    destruct (is_object_type (type fieldSchema) && typeof_object v);
      [|inversion Ho; eauto].
    destruct (validate cfgA sub v) as [ra|] eqn:Hra; simpl in Ho; [|discriminate].
    destruct (Hsub sub v ra eq_refl Hra) as (rf & Hrf & Hle).
    rewrite Hrf. simpl. inversion Ho. eexists. split; [reflexivity|].
    rewrite (nested_errors_length _ _ _ _ _ Hra),
            (nested_errors_length _ _ _ _ _ Hrf). exact Hle. }
  assert (Ha' : exists afs, arrayErrors cfgF fieldName v fieldSchema = Some afs /\
                            List.length afs <= List.length aa).
  { unfold arrayErrors in *.
    destruct (items fieldSchema) as [itemSchema|]; [|inversion Ha; eauto].
    destruct v; try (inversion Ha; eauto; fail).
    destruct (is_array_type (type fieldSchema)); [|inversion Ha; eauto].
    apply (forEach_first_shorter _ (itemErrors cfgA fieldName itemSchema));
      [|exact Ha].
    intros item index e _.
    destruct (IHitems itemSchema eq_refl) as [IHf IHs].
    unfold itemErrors. destruct (fields itemSchema) as [sub|]; [|apply IHf].
    destruct (is_object_type (type itemSchema)); [|apply IHf].
    destruct (validate cfgA sub item) as [ra|] eqn:Hra; simpl; [|discriminate].
    destruct (IHs sub item ra eq_refl Hra) as (rf & Hrf & Hle).
    rewrite Hrf. simpl. intros He. inversion He. eexists.
    split; [reflexivity|].
    rewrite (nested_errors_length _ _ _ _ _ Hra),
            (nested_errors_length _ _ _ _ _ Hrf). exact Hle. }
  destruct Ho' as (ofs & -> & Hole). destruct Ha' as (afs & -> & Hale). simpl.
  eexists. split; [reflexivity|].
  rewrite !length_app.
  pose proof (ruleChain_first_shorter fieldName v (rules fieldSchema)). lia.
Qed.

(** Whenever "all" mode returns a result, "first" mode returns one too, with
    an error list that is not longer. *)
Lemma first_mode_not_longer schema input ra :
  validate cfgA schema input = Some ra ->
  exists rf, validate cfgF schema input = Some rf /\
             List.length (errors rf) <= List.length (errors ra).
Proof.
  apply validate_body_first_shorter. intros k v ea.
  rewrite !validateFieldIn_get.
  destruct (schema_get schema k) as [fld|]; simpl; [|discriminate].
  intros H. inversion H as [H'].
  destruct (proj1 (validateField_first_shorter fld) k v ea H') as (ef & -> & Hle).
  eauto.
Qed.

End FirstAgainstAll.

(** C2, as the code behaves. In "first" mode the items of an array are all
    validated before [validate] looks at the error list again, so the first
    failing field can contribute more than one error: for the array [tags]
    of strings of at least two characters, [{tags:["a","b"]}] yields two
    errors, where stopping at the first error produced would yield one. *)
Theorem first_mode_keeps_every_item_error :
  validate (mkConfig true false First) words_schema words_input =
  Some (mkResult false
          [mkError "tags[0]" "tags[0] must be at least 2 characters long" (VStr "a");
           mkError "tags[1]" "tags[1] must be at least 2 characters long" (VStr "b")]
          VNull).
Proof. reflexivity. Qed.

(** * Further properties of the engine *)

(** ** The rule chain *)

(** X1. In "all" mode the rule chain reports every rule that the value
    fails, one error per rule in declared order; in "first" mode it reports
    the first of them only. *)
Theorem rule_chain_reports cfg fieldName v rs :
  ruleChain cfg fieldName v rs =
  map (rule_error fieldName v)
      (if is_first cfg then firstn 1 (failing v rs) else failing v rs).
Proof.
  unfold failing. induction rs as [|rule rest IH]; simpl.
  - now destruct (is_first cfg).
  - destruct (rule_validate rule v); simpl; [exact IH|].
    destruct (is_first cfg); simpl; [reflexivity|]. now rewrite IH.
Qed.

(** ** validateType *)

(** X2. The type categories exclude one another: a value accepted under one
    declared type is rejected under every other type but [any]; and [null],
    [undefined] and [NaN] are accepted under [any] only. *)
Theorem type_categories_exclusive v f g :
  validateType v f = true ->
  validateType v g = true ->
  (type f = type g \/ type f = TAny \/ type g = TAny) /\
  (v = VNull \/ v = VUndefined \/ v = VNaN -> type f = TAny).
Proof.
  unfold validateType. intros Hf Hg. split.
  - destruct (type f), (type g); auto; destruct v; discriminate.
  - intros [->|[->| ->]]; destruct (type f); auto; discriminate.
Qed.

Lemma type_categories_exclusive_witness :
  type (plain TArray) = type (set_required (plain TArray)) \/
  type (plain TArray) = TAny \/ type (set_required (plain TArray)) = TAny.
Proof.
  apply (type_categories_exclusive (VArr [VNum 1]) (plain TArray)
           (set_required (plain TArray))); reflexivity.
Defined.

(** ** The configuration flags *)

(** X3. The verdict and the error list do not depend on [transformEnabled]:
    two engines that differ in that flag only raise on the same inputs and
    otherwise return the same [valid] and the same errors. *)
Theorem transform_flag_keeps_errors t1 t2 strict mode schema input :
  option_map report (validate (mkConfig t1 strict mode) schema input) =
  option_map report (validate (mkConfig t2 strict mode) schema input).
Proof. apply validate_same_policy. split; reflexivity. Qed.

Lemma subseq_nil_l {A : Type} (m : list A) : subseq [] m.
Proof. induction m; constructor; assumption. Qed.

Lemma subseq_refl {A : Type} (l : list A) : subseq l l.
Proof. induction l; constructor; assumption. Qed.

Lemma subseq_nil_r {A : Type} (l : list A) : subseq l [] -> l = [].
Proof. intros H. inversion H. reflexivity. Qed.

Lemma subseq_app {A : Type} (l1 m1 l2 m2 : list A) :
  subseq l1 m1 -> subseq l2 m2 -> subseq (l1 ++ l2) (m1 ++ m2).
Proof.
  intros H1 H2. induction H1; simpl; try constructor; assumption.
Qed.

Lemma subseq_map {A B : Type} (f : A -> B) l m :
  subseq l m -> subseq (map f l) (map f m).
Proof. intros H. induction H; simpl; constructor; assumption. Qed.

Lemma subseq_app_l {A : Type} (l m n : list A) : subseq l m -> subseq l (n ++ m).
Proof. intros H. apply (subseq_app [] n l m); [apply subseq_nil_l | exact H]. Qed.

Lemma subseq_app_r {A : Type} (l m n : list A) : subseq l m -> subseq l (m ++ n).
Proof.
  intros H. rewrite <- (app_nil_r l).
  apply subseq_app; [exact H | apply subseq_nil_l].
Qed.

Lemma selects_nil : selects [] [].
Proof. split; [constructor | reflexivity]. Qed.

Lemma selects_refl l : selects l l.
Proof. split; [apply subseq_refl | auto]. Qed.

Lemma selects_app a b c d : selects a b -> selects c d -> selects (a ++ c) (b ++ d).
Proof.
  intros [Hs1 Hn1] [Hs2 Hn2]. split; [now apply subseq_app|].
  intros H. apply app_eq_nil in H as [Ha Hc].
  now rewrite (Hn1 Ha), (Hn2 Hc).
Qed.

Lemma selects_map f a b : selects a b -> selects (map f a) (map f b).
Proof.
  intros [Hs Hn]. split; [now apply subseq_map|].
  intros H. apply map_eq_nil in H. now rewrite (Hn H).
Qed.

Section FirstSelectsFromAll.

Variables cfgF cfgA : Config.
Hypothesis modeF : is_first cfgF = true.
Hypothesis modeA : is_first cfgA = false.
Hypothesis strict_same : strictMode cfgF = strictMode cfgA.

Lemma ruleChain_selects fieldName v rs :
  selects (ruleChain cfgF fieldName v rs) (ruleChain cfgA fieldName v rs).
Proof.
  induction rs as [|rule rest IH]; simpl; [apply selects_nil|].
  rewrite modeF, modeA. destruct (rule_validate rule v); simpl; [exact IH|].
  split; [|discriminate]. apply subseq_keep, subseq_nil_l.
Qed.

Lemma forEach_selects {A : Type}
    (f g : A -> nat -> option (list ValidationError)) l i ea :
  (forall x j e, In x l -> g x j = Some e ->
     exists e', f x j = Some e' /\ selects e' e) ->
  forEach g l i = Some ea ->
  exists ef, forEach f l i = Some ef /\ selects ef ea.
Proof.
  revert i ea. induction l as [|x rest IH]; intros i ea Hfg H; simpl in *.
  - inversion H. exists []. split; [reflexivity | apply selects_nil].
  - destruct (g x i) as [e|] eqn:Hg; simpl in H; [|discriminate].
    destruct (forEach g rest (S i)) as [es|] eqn:Hr; simpl in H; [|discriminate].
    inversion H. subst ea.
    destruct (Hfg x i e (or_introl eq_refl) Hg) as (e' & -> & He).
    destruct (IH (S i) es) as (es' & -> & Hes); [|exact Hr|].
    { intros y j e0 Hy. apply Hfg. now right. }
    exists (e' ++ es'). split; [reflexivity | now apply selects_app].
Qed.

Lemma requiredPass_selects schema input names ea ea' :
  requiredPass cfgA schema input names ea = Next ea' ->
  (requiredPass cfgF schema input names [] = Next [] /\ ea' = ea) \/
  exists k more,
    requiredPass cfgF schema input names [] = Return (failed [required_error k]) /\
    ea' = ea ++ more /\ subseq [required_error k] more.
Proof.
  revert ea. induction names as [|k rest IH]; intros ea H; simpl in *.
  - left. inversion H. now split.
  - destruct (schema_get schema k) as [fld|]; simpl in *; [|discriminate].
    destruct (required fld); [|eauto].
    destruct (js_read input k) as [v|]; simpl in *; [|discriminate].
    destruct (reads_undefined v || reads_null v && negb (nullable fld)); [|eauto].
    rewrite (checkpoint_all _ _ modeA) in H. simpl in H.
    rewrite checkpoint_first by (assumption || discriminate). simpl.
    right. apply requiredPass_Next in H as (more & -> & _).
    exists k, (required_error k :: more). rewrite <- app_assoc.
    split; [reflexivity|]. split; [reflexivity|].
    apply subseq_keep, subseq_nil_l.
Qed.

Section Loops.

Variable schema : SchemaDefinition.
Variables vfoF vfoA : string -> value -> option (option (list ValidationError)).
Hypothesis vfo_selects :
  forall k v ea, vfoA k v = Some (Some ea) ->
    exists ef, vfoF k v = Some (Some ef) /\ selects ef ea.
Variable input : value.

Lemma verdict_selects k feA ovA :
  verdict cfgA schema vfoA input k = Some (feA, ovA) ->
  exists feF ovF,
    verdict cfgF schema vfoF input k = Some (feF, ovF) /\ selects feF feA.
Proof.
  unfold verdict. destruct (js_get input k) as [v|]; simpl; [|discriminate].
  rewrite strict_same. destruct (schema_get schema k) as [fld|].
  - destruct (vfoA k v) as [[ea|]|] eqn:Ha; simpl; try discriminate.
    destruct (vfo_selects k v ea Ha) as (ef & -> & Hsel). simpl.
    intros H.
    assert (feA = ea) by (destruct ea; inversion H; reflexivity). subst feA.
    destruct ef; eexists _, _; (split; [reflexivity | exact Hsel]).
  - destruct (strictMode cfgA); intros H; inversion H; eexists _, _;
      (split; [reflexivity | apply selects_refl]).
Qed.

Lemma fieldPass_selects names ea resA ea' resA' resF :
  fieldPass cfgA schema vfoA input names (ea, resA) = Next (ea', resA') ->
  (exists resF',
     fieldPass cfgF schema vfoF input names ([], resF) = Next ([], resF') /\
     ea' = ea) \/
  (exists fe more,
     fieldPass cfgF schema vfoF input names ([], resF) = Return (failed fe) /\
     ea' = ea ++ more /\ subseq fe more /\ fe <> []).
Proof.
  revert ea resA resF. induction names as [|k rest IH]; intros ea resA resF H.
  - left. exists resF. inversion H. now split.
  - rewrite fieldPass_step in *.
    destruct (verdict cfgA schema vfoA input k) as [[feA ovA]|] eqn:Hv;
      [|discriminate].
    destruct (verdict_selects k feA ovA Hv) as (feF & ovF & -> & Hsub & Hnil).
    apply bind_Next in H as (ea1 & Hc & H).
    assert (Hea1 : ea1 = ea ++ feA).
    { destruct feA; [inversion Hc; now rewrite app_nil_r|].
      rewrite (checkpoint_all _ _ modeA) in Hc. now inversion Hc. }
    subst ea1.
    destruct feF as [|e feF]; simpl.
    + rewrite (Hnil eq_refl), app_nil_r in H.
      apply (IH _ _ (match ovF with
                     | Some w => obj_set resF k w
                     | None => resF
                     end)) in H. exact H.
    + rewrite checkpoint_first by (assumption || discriminate). simpl.
      right. apply fieldPass_Next in H as (more & -> & _).
      exists (e :: feF), (feA ++ more). rewrite <- app_assoc.
      split; [reflexivity|]. split; [reflexivity|].
      split; [now apply subseq_app_r | discriminate].
Qed.

Lemma validate_body_selects ra :
  run (validate_body cfgA schema vfoA input) = Some ra ->
  exists rf,
    run (validate_body cfgF schema vfoF input) = Some rf /\
    selects (errors rf) (errors ra).
Proof.
  intros H.
  apply validate_body_inv in H
    as [(errs & _ & _ & Hf) | (ea1 & ea2 & resA & resA' & H1 & H2 & _ & ->)];
    [congruence|].
  unfold validate_body.
  destruct (requiredPass_selects _ _ _ _ _ H1)
    as [[-> ->] | (k & more1 & -> & -> & Hsub)]; simpl.
  - destruct (fieldPass_selects _ _ _ _ _ [] H2)
      as [(resF & -> & ->) | (fe & more & -> & -> & Hsub & Hne)]; simpl.
    + destruct (defaultPass_spec schema (map fst schema) resF (fun k Hk => Hk))
        as (resF' & -> & _).
      simpl. eexists. split; [reflexivity | apply selects_nil].
    + eexists. split; [reflexivity|]. simpl. split; [exact Hsub|].
      intros E. contradiction.
  - apply fieldPass_Next in H2 as (more2 & -> & _).
    eexists. split; [reflexivity|]. simpl. split; [|discriminate].
    now apply subseq_app_r.
Qed.

End Loops.

Lemma nested_errors_selects path cfg1 cfg2 schema input r1 r2 :
  validate cfg1 schema input = Some r1 ->
  validate cfg2 schema input = Some r2 ->
  selects (errors r1) (errors r2) ->
  selects (nested_errors path r1) (nested_errors path r2).
Proof.
  intros H1 H2 Hsel.
  rewrite (nested_errors_map _ _ _ _ _ H1), (nested_errors_map _ _ _ _ _ H2).
  now apply selects_map.
Qed.

Lemma validateField_selects fieldSchema :
  (forall fieldName v ea,
     validateField cfgA fieldName v fieldSchema = Some ea ->
     exists ef, validateField cfgF fieldName v fieldSchema = Some ef /\
                selects ef ea) /\
  (forall sub input ra,
     fields fieldSchema = Some sub ->
     validate cfgA sub input = Some ra ->
     exists rf, validate cfgF sub input = Some rf /\
                selects (errors rf) (errors ra)).
Proof.
  induction fieldSchema as [fieldSchema IHfields IHitems] using SchemaField_ind.
  assert (Hsub : forall sub input ra,
             fields fieldSchema = Some sub ->
             validate cfgA sub input = Some ra ->
             exists rf, validate cfgF sub input = Some rf /\
                        selects (errors rf) (errors ra)).
  { intros sub input ra Hf. apply validate_body_selects.
    intros k v ea. rewrite !validateFieldIn_get.
    destruct (schema_get sub k) as [fld|] eqn:Hk; simpl; [|discriminate].
    intros H. inversion H as [H']. clear H.
    apply schema_get_In in Hk as [(k' & Hk) | ->].
    2:{ rewrite validateField_inherited in *. inversion H'. eexists.
        split; [reflexivity | apply selects_refl]. }
    specialize (IHfields sub Hf). rewrite Forall_forall in IHfields.
    destruct (proj1 (IHfields (k', fld) Hk) k v ea H') as (ef & Hef & Hsel).
    simpl in Hef. rewrite Hef. eauto. }
  split; [|exact Hsub].
  intros fieldName v ea. rewrite !validateField_eq.
  destruct (is_null v);
    [intros H; exists ea; split; [exact H | apply selects_refl]|].
  destruct (is_undefined v && negb (required fieldSchema));
    [intros H; exists ea; split; [exact H | apply selects_refl]|].
  destruct (negb (validateType v fieldSchema));
    [intros H; exists ea; split; [exact H | apply selects_refl]|].
  destruct (objectErrors cfgA fieldName v fieldSchema) as [oa|] eqn:Ho;
    simpl; [|discriminate].
  destruct (arrayErrors cfgA fieldName v fieldSchema) as [aa|] eqn:Ha;
    simpl; [|discriminate].
  intros H. inversion H. subst ea. clear H.
  assert (Ho' : exists ofs, objectErrors cfgF fieldName v fieldSchema = Some ofs /\
                            selects ofs oa).
  { unfold objectErrors in *. destruct (fields fieldSchema) as [sub|];
      [|inversion Ho; exists []; split; [reflexivity | apply selects_nil]].
    destruct (is_object_type (type fieldSchema) && typeof_object v);
      [|inversion Ho; exists []; split; [reflexivity | apply selects_nil]].
    destruct (validate cfgA sub v) as [ra|] eqn:Hra; simpl in Ho; [|discriminate].
    destruct (Hsub sub v ra eq_refl Hra) as (rf & Hrf & Hsel).
    rewrite Hrf. simpl. inversion Ho. eexists. split; [reflexivity|].
    now apply (nested_errors_selects _ _ _ _ _ _ _ Hrf Hra). }
  assert (Ha' : exists afs, arrayErrors cfgF fieldName v fieldSchema = Some afs /\
                            selects afs aa).
  { unfold arrayErrors in *.
    destruct (items fieldSchema) as [itemSchema|];
      [|inversion Ha; exists []; split; [reflexivity | apply selects_nil]].
    destruct v;
      try (inversion Ha; exists []; split; [reflexivity | apply selects_nil]).
    destruct (is_array_type (type fieldSchema));
      [|inversion Ha; exists []; split; [reflexivity | apply selects_nil]].
    apply (forEach_selects _ (itemErrors cfgA fieldName itemSchema));
      [|exact Ha].
    intros item index e _.
    destruct (IHitems itemSchema eq_refl) as [IHf IHs].
    unfold itemErrors. destruct (fields itemSchema) as [sub|]; [|apply IHf].
    destruct (is_object_type (type itemSchema)); [|apply IHf].
    destruct (validate cfgA sub item) as [ra|] eqn:Hra; simpl; [|discriminate].
    destruct (IHs sub item ra eq_refl Hra) as (rf & Hrf & Hsel).
    rewrite Hrf. simpl. intros He. inversion He. eexists.
    split; [reflexivity|].
    now apply (nested_errors_selects _ _ _ _ _ _ _ Hrf Hra). }
  destruct Ho' as (ofs & -> & Hosel). destruct Ha' as (afs & -> & Hasel). simpl.
  eexists. split; [reflexivity|].
  apply selects_app; [exact Hosel|].
  apply selects_app; [exact Hasel | apply ruleChain_selects].
Qed.

Lemma validate_selects schema input ra :
  validate cfgA schema input = Some ra ->
  exists rf, validate cfgF schema input = Some rf /\
             selects (errors rf) (errors ra).
Proof.
  apply validate_body_selects. intros k v ea.
  rewrite !validateFieldIn_get.
  destruct (schema_get schema k) as [fld|]; simpl; [|discriminate].
  intros H. inversion H as [H'].
  destruct (proj1 (validateField_selects fld) k v ea H') as (ef & -> & Hsel).
  eauto.
Qed.

End FirstSelectsFromAll.

(** X4. Whenever an engine in "all" mode returns a result, the engine in
    "first" mode with the same [strictMode] returns one too, with the same
    [valid]; its errors are among the errors of "all" mode, in the same
    order. *)
Theorem first_mode_selects_from_all t1 t2 strict schema input ra :
  validate (mkConfig t1 strict All) schema input = Some ra ->
  exists rf,
    validate (mkConfig t2 strict First) schema input = Some rf /\
    subseq (errors rf) (errors ra) /\
    valid rf = valid ra.
Proof.
  intros Ha.
  destruct (validate_selects (mkConfig t2 strict First) (mkConfig t1 strict All)
              eq_refl eq_refl eq_refl schema input ra Ha) as (rf & Hf & Hsub & Hnil).
  exists rf. split; [exact Hf|]. split; [exact Hsub|].
  pose proof (valid_iff_no_errors _ _ _ _ Ha) as Hva.
  pose proof (valid_iff_no_errors _ _ _ _ Hf) as Hvf.
  destruct (valid rf) eqn:Ef, (valid ra) eqn:Ea; try reflexivity.
  - rewrite (Hnil (proj1 Hvf eq_refl)) in Hva.
    symmetry. now apply Hva.
  - rewrite (proj1 Hva eq_refl) in Hsub. apply subseq_nil_r in Hsub.
    now apply Hvf.
Qed.

Lemma first_mode_selects_from_all_witness :
  exists rf,
    validate (mkConfig false false First) tags_schema tags_input = Some rf /\
    subseq (errors rf)
      [mkError "tags[0]" "tags[0] must be at least 2 characters long" (VStr "a");
       mkError "tags" "tags must contain unique items"
               (VArr [VStr "a"; VStr "bb"; VStr "bb"])] /\
    valid rf = false.
Proof.
  apply (first_mode_selects_from_all true false false tags_schema tags_input
           (mkResult false
              [mkError "tags[0]" "tags[0] must be at least 2 characters long" (VStr "a");
               mkError "tags" "tags must contain unique items"
                       (VArr [VStr "a"; VStr "bb"; VStr "bb"])]
              VNull)).
  reflexivity.
Defined.

(** ** The error list of "all" mode *)

Lemma requiredPass_all_list cfg schema input names errs errs' :
  is_first cfg = false ->
  requiredPass cfg schema input names errs = Next errs' ->
  errs' = errs ++ map required_error (filter (reported_missing schema input) names).
Proof.
  intros Hall. revert errs. induction names as [|k rest IH]; intros errs H.
  - inversion H. simpl. now rewrite app_nil_r.
  - simpl in H. apply bind_Next in H as (fld & Hfld & H). apply lift_Next in Hfld.
    simpl filter. unfold reported_missing at 1.
    apply schema_get_cases in Hfld as [Hfld | (Hfld & _ & ->)]; rewrite Hfld.
    2:{ simpl in H. now apply IH. }
    unfold reads_missing.
    destruct (required fld); simpl.
    + apply bind_Next in H as (v & Hv & H). apply lift_Next in Hv. rewrite Hv.
      destruct (reads_undefined v || reads_null v && negb (nullable fld)).
      * rewrite (checkpoint_all _ _ Hall) in H. simpl in H.
        apply IH in H. rewrite H, <- app_assoc. reflexivity.
      * now apply IH.
    + apply IH in H. now destruct (js_read input k).
Qed.

Lemma fieldPass_all_list cfg schema vfo input names errs res errs' res' :
  is_first cfg = false ->
  fieldPass cfg schema vfo input names (errs, res) = Next (errs', res') ->
  errs' = errs ++
          flat_map (fun k => match verdict cfg schema vfo input k with
                             | Some (fe, _) => fe
                             | None => []
                             end) names.
Proof.
  intros Hall. revert errs res. induction names as [|k rest IH]; intros errs res H.
  - inversion H. simpl. now rewrite app_nil_r.
  - rewrite fieldPass_step in H. simpl flat_map.
    destruct (verdict cfg schema vfo input k) as [[fe ov]|]; [|discriminate].
    apply bind_Next in H as (errs1 & Hc & H).
    assert (errs1 = errs ++ fe).
    { destruct fe; [inversion Hc; now rewrite app_nil_r|].
      rewrite (checkpoint_all _ _ Hall) in Hc. now inversion Hc. }
    subst errs1. apply IH in H. now rewrite H, <- app_assoc.
Qed.

(** X5. In "all" mode the error list of a result is the "is required"
    errors of the missing required fields, in schema order, followed by the
    errors of the keys of the data, key by key in the order of the data.
    A field is missing by what a read of the data finds under its name, an
    inherited member included, and a key of the data is checked against
    what the schema gives under it, a field of its own or an inherited
    member. *)
Theorem all_mode_error_list cfg schema input r :
  is_first cfg = false ->
  validate cfg schema input = Some r ->
  errors r =
  map required_error (filter (reported_missing schema input) (map fst schema)) ++
  flat_map (key_errors cfg schema input) (js_keys input).
Proof.
  intros Hall H.
  apply validate_inv in H
    as [(errs & _ & _ & Hf) | (errs1 & errs2 & res & res' & H1 & H2 & _ & ->)];
    [congruence|].
  apply (requiredPass_all_list _ _ _ _ _ _ Hall) in H1.
  apply (fieldPass_all_list _ _ _ _ _ _ _ _ _ Hall) in H2.
  simpl in H1. subst errs1 errs2. reflexivity.
Qed.

Lemma all_mode_error_list_witness :
  [required_error "a"; null_error "a";
   type_error "constructor" (VNum 1) inherited_field] =
  map required_error
    (filter (reported_missing
               [("a", set_required (plain TString));
                ("toString", set_required (plain TAny))]
               (VObj [("a", VNull); ("constructor", VNum 1)]))
            ["a"; "toString"]) ++
  flat_map (key_errors (mkConfig true false All)
              [("a", set_required (plain TString));
               ("toString", set_required (plain TAny))]
              (VObj [("a", VNull); ("constructor", VNum 1)]))
           ["a"; "constructor"].
Proof.
  apply (all_mode_error_list (mkConfig true false All)
           [("a", set_required (plain TString));
            ("toString", set_required (plain TAny))]
           (VObj [("a", VNull); ("constructor", VNum 1)])
           (mkResult false
              [required_error "a"; null_error "a";
               type_error "constructor" (VNum 1) inherited_field] VNull));
    reflexivity.
Defined.

(** ** When an input is accepted *)

(** X6. [validate] returns a valid result exactly when the data reads, under
    the name of every required field of the schema, as something other than
    [undefined] and, unless the field is nullable, other than [null] (an
    inherited member is such a thing); under [strictMode] the schema gives
    something under every key of the data; and every key of the data passes
    [validateField], without an error, against what the schema gives under
    it: a field of its own or, failing that, the member it inherits from
    [Object.prototype]. *)
Theorem accepted_iff cfg schema input :
  (exists r, validate cfg schema input = Some r /\ valid r = true) <->
  (forall k fld, assoc schema k = Some fld -> required fld = true ->
     exists p, js_read input k = Some p /\ reads_missing fld p = false) /\
  (forall k, In k (js_keys input) ->
     exists v, js_get input k = Some v /\
       match schema_get schema k with
       | None => strictMode cfg = false
       | Some fld => validateField cfg k v fld = Some []
       end).
Proof.
  split.
  - intros (r & H & Hvalid).
    destruct (valid_output _ _ _ _ H Hvalid)
      as (res & res' & H1 & _ & _ & _ & Hin & _).
    split.
    + intros k fld Hfld Hreq.
      apply requiredPass_Next in H1 as (more & Hm & H1).
      symmetry in Hm. simpl in Hm. subst more.
      destruct (H1 k) as (fld' & Hfld' & Hr); [apply assoc_In_keys; eauto|].
      rewrite (schema_get_own _ _ _ Hfld) in Hfld'. inversion Hfld'. subst fld'.
      destruct Hr as [Hr | (v & Hv & [Hr | [[] _]])]; [congruence|eauto].
    + intros k Hk. destruct (Hin k Hk) as (v & Hv & Hres). exists v.
      split; [assumption|].
      destruct (schema_get schema k); now destruct Hres.
  - intros [Hreq Hkeys]. unfold validate, validate_body.
    pose proof (requiredPass_prefix cfg schema input (map fst schema) [] []) as H1.
    rewrite app_nil_r in H1. rewrite H1.
    2:{ intros k Hk. apply assoc_In_keys in Hk as (fld & Hfld). exists fld.
        split; [now apply schema_get_own|].
        destruct (required fld) eqn:E; [right; now apply (Hreq k) | now left]. }
    simpl.
    destruct (fieldPass_clean cfg schema (validateFieldIn cfg schema) input
                (js_keys input) []) as (res & ->).
    { intros k Hk. destruct (Hkeys k Hk) as (v & Hv & Hok).
      destruct (schema_get schema k) as [fld|] eqn:Hfld.
      - exists (Some (stored cfg fld v)). apply verdict_clean. exists v.
        rewrite Hfld. repeat split; assumption.
      - exists (Some v). apply verdict_clean. exists v.
        rewrite Hfld. repeat split; assumption. }
    simpl.
    destruct (defaultPass_spec schema (map fst schema) res (fun k Hk => Hk))
      as (res' & -> & _).
    simpl. eexists. split; reflexivity.
Qed.

Lemma ruleChain_nil cfg fieldName v rs :
  ruleChain cfg fieldName v rs = [] <->
  forall rule, In rule rs -> rule_validate rule v = true.
Proof.
  induction rs as [|rule rest IH]; simpl.
  - split; [intros _ ? [] | reflexivity].
  - destruct (rule_validate rule v) eqn:E; simpl.
    + rewrite IH. split; [intros H r [<-|Hr]; auto | auto].
    + split; [discriminate|]. intros H. specialize (H rule (or_introl eq_refl)).
      congruence.
Qed.

Lemma forEach_clean {A : Type} (f : A -> nat -> option (list ValidationError)) l j :
  forEach f l j = Some [] <->
  forall i item, nth_error l i = Some item -> f item (j + i) = Some [].
Proof.
  revert j. induction l as [|x rest IH]; intros j; simpl.
  - split; [intros _ [|i] item H; discriminate | reflexivity].
  - split.
    + intros H. destruct (f x j) as [e|] eqn:Hx; simpl in H; [|discriminate].
      destruct (forEach f rest (S j)) as [es|] eqn:Hr; simpl in H; [|discriminate].
      inversion H as [Happ]. apply app_eq_nil in Happ as [-> ->].
      intros [|i] item Hi; simpl in Hi.
      * inversion Hi. subst. now rewrite Nat.add_0_r.
      * rewrite <- Nat.add_succ_comm. now apply (proj1 (IH (S j)) Hr).
    + intros H.
      assert (Hx : f x j = Some []).
      { rewrite <- (Nat.add_0_r j). now apply (H 0). }
      assert (Hr : forEach f rest (S j) = Some []).
      { apply IH. intros i item Hi. rewrite Nat.add_succ_comm.
        now apply (H (S i)). }
      now rewrite Hx, Hr.
Qed.

Lemma nested_errors_nil path cfg schema input r :
  validate cfg schema input = Some r ->
  (nested_errors path r = [] <-> valid r = true).
Proof.
  intros H. rewrite (nested_errors_map _ _ _ _ _ H).
  rewrite (valid_iff_no_errors _ _ _ _ H).
  split; [apply map_eq_nil | intros ->; reflexivity].
Qed.

Lemma objectErrors_clean cfg fieldName v fieldSchema :
  validateType v fieldSchema = true ->
  (objectErrors cfg fieldName v fieldSchema = Some [] <->
   forall sub, type fieldSchema = TObject -> fields fieldSchema = Some sub ->
     exists r, validate cfg sub v = Some r /\ valid r = true).
Proof.
  intros Ht. unfold objectErrors, validateType in *.
  destruct (fields fieldSchema) as [sub|]; [|split; [discriminate 3 | reflexivity]].
  destruct (type fieldSchema) eqn:Hty; simpl;
    try (split; [discriminate 2 | reflexivity]).
  apply andb_true_iff in Ht as [Ht _]. apply andb_true_iff in Ht as [-> _].
  split.
  - intros H s _ Hs. inversion Hs. subst s.
    destruct (validate cfg sub v) as [r|] eqn:Hr; simpl in H; [|discriminate].
    exists r. split; [reflexivity|]. inversion H as [Hn].
    now apply (nested_errors_nil fieldName _ _ _ _ Hr).
  - intros H. destruct (H sub eq_refl eq_refl) as (r & Hr & Hv). rewrite Hr.
    simpl. f_equal. now apply (nested_errors_nil fieldName _ _ _ _ Hr).
Qed.

Lemma arrayErrors_clean cfg fieldName v fieldSchema :
  validateType v fieldSchema = true ->
  (arrayErrors cfg fieldName v fieldSchema = Some [] <->
   forall itemSchema elems,
     type fieldSchema = TArray -> items fieldSchema = Some itemSchema ->
     v = VArr elems ->
     forall i item, nth_error elems i = Some item ->
       itemErrors cfg fieldName itemSchema item i = Some []).
Proof.
  intros Ht. unfold arrayErrors, validateType in *.
  destruct (items fieldSchema) as [itemSchema|];
    [|split; [discriminate 3 | reflexivity]].
  destruct (type fieldSchema) eqn:Hty; simpl;
    try (split; [discriminate 2 | now destruct v]).
  destruct v; try discriminate. rewrite forEach_clean. simpl. split.
  - intros H it l _ Hit Hl. inversion Hit. inversion Hl. subst. exact H.
  - intros H. now apply (H itemSchema elems).
Qed.

(** X7. [validateField] reports no error for a value exactly when the value
    is [null] and the field nullable, or the value is [undefined] and the
    field not required, or the value is not [null], has the declared type,
    passes every rule of the field, and validates without error against the
    nested [fields] (for an object) and, item by item, against [items] (for
    an array). *)
Theorem field_accepted_iff cfg fieldName v fieldSchema :
  validateField cfg fieldName v fieldSchema = Some [] <->
  (v = VNull /\ nullable fieldSchema = true) \/
  (v = VUndefined /\ required fieldSchema = false) \/
  (v <> VNull /\ validateType v fieldSchema = true /\
   (forall sub, type fieldSchema = TObject -> fields fieldSchema = Some sub ->
      exists r, validate cfg sub v = Some r /\ valid r = true) /\
   (forall itemSchema elems,
      type fieldSchema = TArray -> items fieldSchema = Some itemSchema ->
      v = VArr elems ->
      forall i item, nth_error elems i = Some item ->
        itemErrors cfg fieldName itemSchema item i = Some []) /\
   (forall rule, In rule (rules fieldSchema) -> rule_validate rule v = true)).
Proof.
  rewrite validateField_eq.
  destruct (is_null v) eqn:Hnull.
  { destruct v; try discriminate.
    destruct (nullable fieldSchema); split; auto.
    - discriminate.
    - intros [[_ H] | [[H _] | [H _]]]; congruence. }
  assert (Hnn : v <> VNull) by (intros ->; discriminate).
  destruct (is_undefined v && negb (required fieldSchema)) eqn:Hund.
  { apply andb_true_iff in Hund as [Hu Hr]. apply negb_true_iff in Hr.
    destruct v; try discriminate. split; auto. }
  destruct (validateType v fieldSchema) eqn:Hty; simpl.
  - rewrite <- (objectErrors_clean cfg fieldName v fieldSchema Hty).
    rewrite <- (arrayErrors_clean cfg fieldName v fieldSchema Hty).
    rewrite <- (ruleChain_nil cfg fieldName v (rules fieldSchema)).
    split.
    + intros H. right. right.
      destruct (objectErrors cfg fieldName v fieldSchema) as [oe|];
        simpl in H; [|discriminate].
      destruct (arrayErrors cfg fieldName v fieldSchema) as [ae|];
        simpl in H; [|discriminate].
      inversion H as [Happ]. apply app_eq_nil in Happ as [-> Happ].
      apply app_eq_nil in Happ as [-> Hrc]. rewrite Hrc. repeat split; auto.
    + intros [[H _] | [[-> Hr] | (_ & _ & -> & -> & ->)]]; [congruence| |reflexivity].
      simpl in Hund. rewrite Hr in Hund. discriminate.
  - split; [discriminate|].
    intros [[H _] | [[-> Hr] | (_ & H & _)]]; [congruence| |discriminate].
    simpl in Hund. rewrite Hr in Hund. discriminate.
Qed.

(** ** Where errors come from *)

Lemma string_app_assoc (a b c : string) :
  ((a ++ b) ++ c = a ++ (b ++ c))%string.
Proof. induction a as [|ch a IH]; simpl; [reflexivity | now rewrite IH]. Qed.

Lemma under_refl k : under k k.
Proof.
  exists "". induction k as [|ch k IH]; simpl; [reflexivity | now rewrite <- IH].
Qed.

Lemma under_app k a path : under (k ++ a) path -> under k path.
Proof. intros (s & ->). exists (a ++ s)%string. apply string_app_assoc. Qed.

Lemma under_prefixed k e : under k (field (prefix_error k e)).
Proof. now exists ("." ++ field e)%string. Qed.

Lemma checkpoint_errors cfg errs :
  outcome_errors (fun e => e) (checkpoint cfg errs) = errs.
Proof.
  unfold checkpoint. destruct (is_first cfg && negb (Nat.eqb (List.length errs) 0));
    reflexivity.
Qed.

Lemma requiredPass_provenance cfg schema input names errs e :
  In e (outcome_errors (fun x => x) (requiredPass cfg schema input names errs)) ->
  In e errs \/ exists k, In k names /\ e = required_error k.
Proof.
  revert errs. induction names as [|k rest IH]; intros errs H; simpl in H.
  - now left.
  - assert (Hrest : forall errs0,
              In e (outcome_errors (fun x => x)
                      (requiredPass cfg schema input rest errs0)) ->
              In e errs0 \/ exists k0, In k0 (k :: rest) /\ e = required_error k0).
    { intros errs0 H0. destruct (IH errs0 H0) as [|(k0 & Hk0 & ->)]; [now left|].
      right. exists k0. split; [now right | reflexivity]. }
    destruct (schema_get schema k) as [fld|]; simpl in H; [|destruct H].
    destruct (required fld); [|now apply Hrest].
    destruct (js_read input k) as [v|]; simpl in H; [|destruct H].
    destruct (reads_undefined v || reads_null v && negb (nullable fld));
      [|now apply Hrest].
    pose proof (checkpoint_errors cfg (errs ++ [required_error k])) as Hc.
    destruct (checkpoint cfg (errs ++ [required_error k])) as [|r|errs1];
      simpl in H, Hc.
    + destruct H.
    + rewrite Hc in H. apply in_app_or in H as [H|[<-|[]]]; [now left|].
      right. exists k. split; [now left | reflexivity].
    + subst errs1. apply Hrest in H as [H|H]; [|now right].
      apply in_app_or in H as [H|[<-|[]]]; [now left|].
      right. exists k. split; [now left | reflexivity].
Qed.

Lemma fieldPass_provenance cfg schema vfo input names errs res e :
  In e (outcome_errors fst (fieldPass cfg schema vfo input names (errs, res))) ->
  In e errs \/
  exists k fe ov,
    In k names /\ verdict cfg schema vfo input k = Some (fe, ov) /\ In e fe.
Proof.
  revert errs res. induction names as [|k rest IH]; intros errs res H.
  - now left.
  - rewrite fieldPass_step in H.
    destruct (verdict cfg schema vfo input k) as [[fe ov]|] eqn:Hv;
      [|destruct H].
    assert (Hrest : forall res0,
              In e (outcome_errors fst
                      (fieldPass cfg schema vfo input rest (errs ++ fe, res0))) ->
              In e errs \/
              exists k0 fe0 ov0,
                In k0 (k :: rest) /\
                verdict cfg schema vfo input k0 = Some (fe0, ov0) /\ In e fe0).
    { intros res0 H0. destruct (IH _ _ H0) as [Hin|(k0 & fe0 & ov0 & Hk0 & Hv0 & He)].
      - apply in_app_or in Hin as [Hin|Hin]; [now left|].
        right. exists k, fe, ov. split; [now left | now split].
      - right. exists k0, fe0, ov0. split; [now right | now split]. }
    destruct fe as [|e0 fe]; simpl in H.
    + apply (Hrest (match ov with Some w => obj_set res k w | None => res end)).
      now rewrite app_nil_r.
    + pose proof (checkpoint_errors cfg (errs ++ e0 :: fe)) as Hc.
      destruct (checkpoint cfg (errs ++ e0 :: fe)) as [|r|errs1]; simpl in H, Hc.
      * destruct H.
      * rewrite Hc in H. apply in_app_or in H as [H|H]; [now left|].
        right. exists k, (e0 :: fe), ov. split; [now left | now split].
      * subst errs1. now apply Hrest in H.
Qed.

Lemma validate_body_provenance cfg schema vfo input r e :
  run (validate_body cfg schema vfo input) = Some r ->
  In e (errors r) ->
  (exists k, In k (map fst schema) /\ e = required_error k) \/
  exists k fe ov,
    In k (js_keys input) /\ verdict cfg schema vfo input k = Some (fe, ov) /\
    In e fe.
Proof.
  unfold validate_body. intros H He.
  pose proof (requiredPass_provenance cfg schema input (map fst schema) [] e) as P1.
  destruct (requiredPass cfg schema input (map fst schema) []) as [|r1|errs1];
    simpl in H, P1; [discriminate| |].
  - inversion H. subst r1. destruct (P1 He) as [[]|P]; now left.
  - pose proof (fieldPass_provenance cfg schema vfo input (js_keys input)
                  errs1 [] e) as P2.
    destruct (fieldPass cfg schema vfo input (js_keys input) (errs1, []))
      as [|r2|[errs2 res]]; simpl in H, P2; [discriminate| |].
    + inversion H. subst r2.
      destruct (P2 He) as [Hin|P]; [|now right].
      destruct (P1 Hin) as [[]|P]; now left.
    + destruct (defaultPass schema (map fst schema) res) as [|r3|res'] eqn:H3;
        simpl in H; [discriminate|now apply defaultPass_not_Return in H3|].
      inversion H. subst r. simpl in He.
      destruct (P2 He) as [Hin|P]; [|now right].
      destruct (P1 Hin) as [[]|P]; now left.
Qed.

Lemma ruleChain_field cfg fieldName v rs e :
  In e (ruleChain cfg fieldName v rs) -> field e = fieldName.
Proof.
  induction rs as [|rule rest IH]; simpl; [intros []|].
  destruct (rule_validate rule v); simpl; [exact IH|].
  intros [<-|H]; [reflexivity|].
  destruct (is_first cfg); [destruct H | now apply IH].
Qed.

Lemma inherited_field_errors_field fieldName v e :
  In e (inherited_field_errors fieldName v) -> field e = fieldName.
Proof.
  unfold inherited_field_errors.
  destruct (is_null v); [intros [<-|[]]; reflexivity|].
  destruct (is_undefined v); [intros []|intros [<-|[]]; reflexivity].
Qed.

Lemma validateField_paths cfg fieldSchema :
  (forall fieldName v errs,
     validateField cfg fieldName v fieldSchema = Some errs ->
     forall e, In e errs -> under fieldName (field e)) /\
  (forall sub input r,
     fields fieldSchema = Some sub ->
     validate cfg sub input = Some r ->
     forall e, In e (errors r) ->
       exists k, (In k (map fst sub) \/ In k (js_keys input)) /\
                 under k (field e)).
Proof.
  induction fieldSchema as [fieldSchema IHfields IHitems] using SchemaField_ind.
  assert (Hsub : forall sub input r,
             fields fieldSchema = Some sub ->
             validate cfg sub input = Some r ->
             forall e, In e (errors r) ->
               exists k, (In k (map fst sub) \/ In k (js_keys input)) /\
                         under k (field e)).
  { intros sub input r Hf H e He.
    destruct (validate_body_provenance _ _ _ _ _ _ H He)
      as [(k & Hk & ->) | (k & fe & ov & Hk & Hv & Hin)].
    - exists k. split; [now left | apply under_refl].
    - exists k. split; [now right|].
      unfold verdict in Hv. destruct (js_get input k) as [v|]; simpl in Hv;
        [|discriminate].
      rewrite validateFieldIn_get in Hv.
      destruct (schema_get sub k) as [fld|] eqn:Hfld; simpl in Hv.
      + destruct (validateField cfg k v fld) as [fe'|] eqn:Hvf; simpl in Hv;
          [|discriminate].
        assert (fe = fe') by (destruct fe'; inversion Hv; reflexivity). subst fe'.
        apply schema_get_In in Hfld as [(k' & Hfld) | ->].
        2:{ rewrite validateField_inherited in Hvf. inversion Hvf. subst fe.
            apply inherited_field_errors_field in Hin. rewrite Hin.
            apply under_refl. }
        specialize (IHfields sub Hf). rewrite Forall_forall in IHfields.
        exact (proj1 (IHfields (k', fld) Hfld) k v fe Hvf e Hin).
      + destruct (strictMode cfg); inversion Hv; subst fe; [|destruct Hin].
        destruct Hin as [<-|[]]. apply under_refl. }
  split; [|exact Hsub].
  intros fieldName v errs. rewrite validateField_eq.
  destruct (is_null v).
  { destruct (nullable fieldSchema); intros H; inversion H; intros e He;
      [destruct He|].
    destruct He as [<-|[]]. apply under_refl. }
  destruct (is_undefined v && negb (required fieldSchema));
    [intros H; inversion H; intros e []|].
  destruct (negb (validateType v fieldSchema));
    [intros H; inversion H; intros e [<-|[]]; apply under_refl|].
  destruct (objectErrors cfg fieldName v fieldSchema) as [oe|] eqn:Ho;
    simpl; [|discriminate].
  destruct (arrayErrors cfg fieldName v fieldSchema) as [ae|] eqn:Ha;
    simpl; [|discriminate].
  intros H. inversion H. subst errs. clear H. intros e He.
  apply in_app_or in He as [He|He]; [|apply in_app_or in He as [He|He]].
  - unfold objectErrors in Ho. destruct (fields fieldSchema) as [sub|];
      [|inversion Ho; subst; destruct He].
    destruct (is_object_type (type fieldSchema) && typeof_object v);
      [|inversion Ho; subst; destruct He].
    destruct (validate cfg sub v) as [r|]; simpl in Ho; [|discriminate].
    inversion Ho. subst oe. unfold nested_errors in He.
    destruct (negb (valid r)); [|destruct He].
    apply in_map_iff in He as (e0 & <- & _). apply under_prefixed.
  - unfold arrayErrors in Ha. destruct (items fieldSchema) as [itemSchema|];
      [|inversion Ha; subst; destruct He].
    destruct v; try (inversion Ha; subst; destruct He; fail).
    destruct (is_array_type (type fieldSchema));
      [|inversion Ha; subst; destruct He].
    destruct (IHitems itemSchema eq_refl) as [IHf _].
    assert (Hitem : forall item index es e0,
               itemErrors cfg fieldName itemSchema item index = Some es ->
               In e0 es -> under fieldName (field e0)).
    { intros item index es e0 Hi He0. unfold itemErrors in Hi.
      assert (Hplain : validateField cfg (item_path fieldName index) item
                         itemSchema = Some es -> under fieldName (field e0)).
      { intros Hv. apply (under_app fieldName
                            ("[" ++ string_of_nat index ++ "]")%string).
        exact (IHf _ _ _ Hv e0 He0). }
      destruct (fields itemSchema) as [sub|]; [|now apply Hplain].
      destruct (is_object_type (type itemSchema)); [|now apply Hplain].
      destruct (validate cfg sub item) as [r|]; simpl in Hi; [|discriminate].
      inversion Hi. subst es. unfold nested_errors in He0.
      destruct (negb (valid r)); [|destruct He0].
      apply in_map_iff in He0 as (e1 & <- & _).
      apply (under_app fieldName ("[" ++ string_of_nat index ++ "]")%string).
      apply under_prefixed. }
    clear Ho. revert ae Ha He. generalize 0.
    induction elems as [|x rest IHl]; intros n ae Ha He; simpl in Ha.
    + inversion Ha. subst. destruct He.
    + destruct (itemErrors cfg fieldName itemSchema x n) as [e1|] eqn:H1;
        simpl in Ha; [|discriminate].
      destruct (forEach (itemErrors cfg fieldName itemSchema) rest (S n))
        as [e2|] eqn:H2; simpl in Ha; [|discriminate].
      inversion Ha. subst ae. apply in_app_or in He as [He|He].
      * exact (Hitem _ _ _ _ H1 He).
      * exact (IHl _ _ H2 He).
  - apply ruleChain_field in He. rewrite He. apply under_refl.
Qed.

(** X8. Every error carries a path under the field it was found in: the
    errors that [validateField] returns for a field have that field's name,
    possibly followed by a sub-path, and every error of a result of
    [validate] has a path under a field of the schema or a key of the
    data. *)
Theorem error_paths cfg schema input r e :
  validate cfg schema input = Some r ->
  In e (errors r) ->
  (exists k, (In k (map fst schema) \/ In k (js_keys input)) /\
             under k (field e)) /\
  (forall fieldSchema fieldName v errs e',
     validateField cfg fieldName v fieldSchema = Some errs ->
     In e' errs -> under fieldName (field e')).
Proof.
  intros H He. split.
  - destruct (validate_body_provenance _ _ _ _ _ _ H He)
      as [(k & Hk & ->) | (k & fe & ov & Hk & Hv & Hin)].
    + exists k. split; [now left | apply under_refl].
    + exists k. split; [now right|].
      unfold verdict in Hv. destruct (js_get input k) as [v|]; simpl in Hv;
        [|discriminate].
      rewrite validateFieldIn_get in Hv.
      destruct (schema_get schema k) as [fld|]; simpl in Hv.
      * destruct (validateField cfg k v fld) as [fe'|] eqn:Hvf; simpl in Hv;
          [|discriminate].
        assert (fe = fe') by (destruct fe'; inversion Hv; reflexivity). subst fe'.
        exact (proj1 (validateField_paths cfg fld) k v fe Hvf e Hin).
      * destruct (strictMode cfg); inversion Hv; subst fe; [|destruct Hin].
        destruct Hin as [<-|[]]. apply under_refl.
  - intros fieldSchema fieldName v errs e' Hv.
    exact (proj1 (validateField_paths cfg fieldSchema) fieldName v errs Hv e').
Qed.

Lemma error_paths_witness :
  exists k, (In k (map fst user_schema) \/ In k (js_keys user_input)) /\
            under k "user.profile.firstName".
Proof.
  apply (error_paths default_config user_schema user_input
           (mkResult false
              [mkError "user.profile.firstName" "Field 'firstName' is required"
                       VUndefined] VNull)
           (mkError "user.profile.firstName" "Field 'firstName' is required"
                    VUndefined)).
  - reflexivity.
  - now left.
Defined.

(** ** The output of a valid result *)

Lemma defaultPass_keys schema names res res' :
  defaultPass schema names res = Next res' ->
  (forall k, In k (map fst res) -> In k (map fst res')) /\
  (forall k, In k (map fst res') ->
     In k (map fst res) \/
     exists fld, assoc schema k = Some fld /\ has_default fld = true).
Proof.
  revert res. induction names as [|a rest IH]; intros res H; simpl in H.
  - inversion H. subst. split; auto.
  - apply bind_Next in H as (fld & Hfld & H). apply lift_Next in Hfld.
    destruct (reads_undefined (obj_read res a) && has_default fld) eqn:E.
    + apply andb_true_iff in E as [_ Hd].
      apply schema_get_cases in Hfld as [Hfld | (_ & _ & ->)]; [|discriminate Hd].
      destruct (IH _ H) as [Hmono Hnew]. split.
      * intros k Hk. apply Hmono, obj_set_keys. now left.
      * intros k Hk. destruct (Hnew k Hk) as [Hold|Hdef]; [|now right].
        apply obj_set_keys in Hold as [Hold | ->]; [now left|].
        right. now exists fld.
    + now apply IH.
Qed.





(** ** Exceptions *)

Lemma requiredPass_nullish cfg schema input names errs :
  is_nullish input = true ->
  requiredPass cfg schema input names errs =
  if existsb (fun k => match schema_get schema k with
                       | Some fld => required fld
                       | None => true
                       end) names
  then Throw else Next errs.
Proof.
  intros Hn. revert errs. induction names as [|k rest IH]; intros errs; simpl.
  - reflexivity.
  - destruct (schema_get schema k) as [fld|]; simpl; [|reflexivity].
    destruct (required fld); simpl; [|apply IH].
    destruct input; try discriminate; reflexivity.
Qed.

Lemma has_required_keys schema :
  has_required schema =
  existsb (fun k => match schema_get schema k with
                    | Some fld => required fld
                    | None => true
                    end) (map fst schema).
Proof.
  unfold has_required. apply eq_true_iff_eq. rewrite !existsb_exists.
  split; intros (k & Hk & H); exists k; (split; [assumption|]);
    rewrite (schema_get_keys _ _ Hk) in *;
    apply assoc_In_keys in Hk as (fld & Hfld); rewrite Hfld in *; assumption.
Qed.

Lemma validate_nullish_raises cfg schema input :
  is_nullish input = true ->
  has_required schema = true ->
  validate cfg schema input = None.
Proof.
  intros Hn Hreq. unfold validate, validate_body.
  now rewrite (requiredPass_nullish _ _ _ _ _ Hn), <- has_required_keys, Hreq.
Qed.

(** X11. On [null] or [undefined] as input, [validate] raises exactly when
    the schema has a required field; otherwise it returns a valid result
    whose output holds the defaults of the schema and nothing else: a field
    whose name [Object.prototype] does not carry gets its default, and a
    field named like a member of [Object.prototype] gets none, since the
    empty output object already gives that member under its name. *)
Theorem nullish_input cfg schema input :
  is_nullish input = true ->
  (validate cfg schema input = None <-> has_required schema = true) /\
  (has_required schema = false ->
   exists res',
     validate cfg schema input = Some (mkResult true [] (VObj res')) /\
     (forall k, obj_get res' k = defaulted schema [] k) /\
     (forall k fld, assoc schema k = Some fld ->
        member k object_members = false ->
        obj_get res' k = if has_default fld then default_value fld
                         else VUndefined) /\
     (forall k, assoc schema k = None -> assoc res' k = None) /\
     (forall k, member k object_members = true -> assoc res' k = None)).
Proof.
  intros Hn.
  assert (Hkeys : js_keys input = []) by (destruct input; try discriminate; reflexivity).
  unfold validate, validate_body.
  rewrite (requiredPass_nullish _ _ _ _ _ Hn), <- has_required_keys, Hkeys.
  destruct (defaultPass_spec schema (map fst schema) [] (fun k Hk => Hk))
    as (res' & Hrun & Hd & Hdo & _).
  destruct (has_required schema); simpl.
  - split; [split; reflexivity | discriminate].
  - rewrite Hrun. simpl. split; [split; discriminate|].
    intros _. exists res'. split; [reflexivity|].
    assert (Hall : forall k, obj_get res' k = defaulted schema [] k).
    { intros k. destruct (in_dec string_dec k (map fst schema)) as [Hk|Hk].
      - now apply Hd.
      - unfold defaulted, obj_get. rewrite (Hdo k Hk).
        apply assoc_None_keys in Hk. now rewrite Hk. }
    split; [exact Hall|]. split; [|split].
    + intros k fld Hfld Hm. rewrite Hall. unfold defaulted. rewrite Hfld.
      rewrite (reads_undefined_own _ _ Hm). reflexivity.
    + intros k Hk. rewrite Hdo; [reflexivity | now apply assoc_None_keys].
    + intros k Hm. rewrite (defaultPass_defined _ _ _ _ k Hrun); [reflexivity|].
      unfold obj_read, chain_read. simpl assoc. now rewrite Hm.
Qed.

Lemma nullish_input_witness :
  exists res',
    validate default_config
      [("valueOf", mkField TNumber false false [] None
                     (Some (DefaultLit (VNum 5))) None None);
       ("n", mkField TNumber false false [] None
               (Some (DefaultLit (VNum 7))) None None)]
      VNull = Some (mkResult true [] (VObj res')) /\
    obj_get res' "n" = VNum 7 /\ assoc res' "valueOf" = None.
Proof.
  destruct (nullish_input default_config
              [("valueOf", mkField TNumber false false [] None
                             (Some (DefaultLit (VNum 5))) None None);
               ("n", mkField TNumber false false [] None
                       (Some (DefaultLit (VNum 7))) None None)]
              VNull eq_refl) as [_ H].
  destruct (H eq_refl) as (res' & Hv & _ & Hn & _ & Hinh).
  exists res'. split; [exact Hv|]. split.
  - exact (Hn "n" _ eq_refl eq_refl).
  - exact (Hinh "valueOf" eq_refl).
Defined.

Lemma forEach_throws {A : Type} (f : A -> nat -> option (list ValidationError))
    l i x :
  In x l -> (forall j, f x j = None) -> forEach f l i = None.
Proof.
  revert i. induction l as [|y rest IH]; intros i Hin Hx; [destruct Hin|].
  simpl. destruct Hin as [->|Hin].
  - now rewrite Hx.
  - destruct (f y i); simpl; [|reflexivity]. now rewrite (IH (S i) Hin Hx).
Qed.

(** X12. An array whose items are validated as records (the item schema
    has type [object] and [fields]) with a required field makes
    [validateField], and with it [validate], raise as soon as one item is
    [null] or [undefined]. *)
Theorem nullish_record_item_raises cfg fieldName elems fieldSchema itemSchema sub item :
  type fieldSchema = TArray ->
  items fieldSchema = Some itemSchema ->
  type itemSchema = TObject ->
  fields itemSchema = Some sub ->
  has_required sub = true ->
  In item elems ->
  is_nullish item = true ->
  validateField cfg fieldName (VArr elems) fieldSchema = None /\
  forall schema input,
    assoc schema fieldName = Some fieldSchema ->
    In fieldName (js_keys input) ->
    js_get input fieldName = Some (VArr elems) ->
    (is_first cfg = false -> validate cfg schema input = None) /\
    (forall r, validate cfg schema input = Some r -> early cfg r).
Proof.
  intros Hty Hit Hity Hf Hreq Hin Hn.
  assert (Hthrow : validateField cfg fieldName (VArr elems) fieldSchema = None).
  { rewrite validateField_eq. simpl. unfold validateType. rewrite Hty. simpl.
    assert (Ha : arrayErrors cfg fieldName (VArr elems) fieldSchema = None).
    { unfold arrayErrors. rewrite Hit, Hty. simpl.
      apply (forEach_throws _ _ _ item Hin). intros j.
      unfold itemErrors. rewrite Hf, Hity. simpl.
      now rewrite (validate_nullish_raises cfg sub item Hn Hreq). }
    rewrite Ha. now destruct (objectErrors cfg fieldName (VArr elems) fieldSchema). }
  split; [exact Hthrow|].
  intros schema input Hfld Hk Hv.
  assert (Hearly : forall r, validate cfg schema input = Some r -> early cfg r);
    [|split; [|exact Hearly]].
  2:{ intros Hall. destruct (validate cfg schema input) as [r|]; [|reflexivity].
      destruct (Hearly r eq_refl) as (errs & _ & _ & Hfirst). congruence. }
  intros r H.
  apply validate_inv in H as [H | (errs1 & errs2 & res & res' & _ & H2 & _)];
    [exact H|].
  apply fieldPass_Next in H2 as (more & _ & _ & H2).
  destruct (H2 fieldName Hk) as (fe & ov & Hvd & _).
  unfold verdict in Hvd. rewrite Hv, (schema_get_own _ _ _ Hfld) in Hvd.
  simpl in Hvd.
  rewrite (validateFieldIn_assoc _ _ _ _ _ Hfld) in Hvd. simpl in Hvd.
  rewrite Hthrow in Hvd. discriminate.
Qed.

Lemma nullish_record_item_raises_witness :
  validateField default_config "users" (VArr [VObj [("id", VNum 1)]; VNull])
    (mkField TArray false false [] None None None
       (Some (mkField TObject false false [] None None
                (Some [("id", set_required (plain TNumber))]) None))) = None.
Proof.
  apply (nullish_record_item_raises default_config "users"
           [VObj [("id", VNum 1)]; VNull]
           (mkField TArray false false [] None None None
              (Some (mkField TObject false false [] None None
                       (Some [("id", set_required (plain TNumber))]) None)))
           (mkField TObject false false [] None None
              (Some [("id", set_required (plain TNumber))]) None)
           [("id", set_required (plain TNumber))] VNull);
    try reflexivity.
  right. now left.
Defined.

Lemma index_get_In {A : Type} (l : list A) i key x :
  index_get l i key = Some x -> In x l.
Proof.
  revert i. induction l as [|y rest IH]; intros i; simpl; [discriminate|].
  destruct (String.eqb (string_of_nat i) key).
  - intros H. inversion H. now left.
  - intros H. right. exact (IH _ H).
Qed.

Lemma chars_strings s w : In w (chars s) -> no_nullish_items w = true.
Proof.
  induction s as [|c s IH]; simpl; [intros []|].
  intros [<-|H]; [reflexivity | now apply IH].
Qed.

Lemma js_get_no_nullish input k w :
  no_nullish_items input = true ->
  js_get input k = Some w ->
  no_nullish_items w = true.
Proof.
  destruct input; simpl; intros Hn H; inversion H; subst; try reflexivity.
  - unfold indexed_get.
    destruct (index_get (chars s) 0 k) as [x|] eqn:E.
    + apply index_get_In in E. now apply (chars_strings s).
    + now destruct (String.eqb k "length").
  - unfold indexed_get.
    destruct (index_get elems 0 k) as [x|] eqn:E.
    + apply index_get_In in E. rewrite forallb_forall in Hn.
      apply Hn in E. now apply andb_true_iff in E as [_ E].
    + now destruct (String.eqb k "length").
  - unfold obj_get. destruct (assoc props k) as [x|] eqn:E; [|reflexivity].
    apply assoc_Some_In in E as (k' & E). rewrite forallb_forall in Hn.
    exact (Hn _ E).
Qed.

Lemma js_get_not_nullish input k :
  is_nullish input = false -> exists v, js_get input k = Some v.
Proof. destruct input; simpl; intros H; try discriminate; eauto. Qed.

Lemma js_read_not_nullish input k :
  is_nullish input = false -> exists p, js_read input k = Some p.
Proof. destruct input; simpl; intros H; try discriminate; eauto. Qed.

Lemma forEach_total {A : Type} (f : A -> nat -> option (list ValidationError)) l i :
  (forall x j, In x l -> exists e, f x j = Some e) ->
  exists es, forEach f l i = Some es.
Proof.
  revert i. induction l as [|x rest IH]; intros i H; simpl; [eauto|].
  destruct (H x i (or_introl eq_refl)) as (e & ->).
  destruct (IH (S i)) as (es & ->); [intros y j Hy; apply H; now right|].
  simpl. eauto.
Qed.

Section NoThrow.

Variable cfg : Config.
Variable schema : SchemaDefinition.
Variable vfo : string -> value -> option (option (list ValidationError)).
Variable input : value.
Hypothesis readable : is_nullish input = false.

Lemma requiredPass_no_throw names errs :
  (forall k, In k names -> In k (map fst schema)) ->
  requiredPass cfg schema input names errs <> Throw.
Proof.
  revert errs. induction names as [|k rest IH]; intros errs Hsub; simpl.
  - discriminate.
  - assert (IH' := fun e => IH e (fun k' Hk' => Hsub k' (or_intror Hk'))).
    assert (Hk : exists fld, assoc schema k = Some fld)
      by (apply assoc_In_keys, Hsub; now left).
    destruct Hk as (fld & Hfld). rewrite (schema_get_own _ _ _ Hfld). simpl.
    destruct (required fld); [|apply IH'].
    destruct (js_read_not_nullish input k readable) as (v & ->). simpl.
    destruct (reads_undefined v || reads_null v && negb (nullable fld)); [|apply IH'].
    destruct (checkpoint cfg (errs ++ [required_error k])) eqn:E; simpl;
      [|discriminate|apply IH'].
    unfold checkpoint in E.
    destruct (is_first cfg && negb (Nat.eqb (List.length (errs ++ [required_error k])) 0));
      discriminate.
Qed.

Lemma fieldPass_no_throw names st :
  (forall k, In k names -> verdict cfg schema vfo input k <> None) ->
  fieldPass cfg schema vfo input names st <> Throw.
Proof.
  revert st. induction names as [|k rest IH]; intros [errs res] H.
  - discriminate.
  - rewrite fieldPass_step.
    destruct (verdict cfg schema vfo input k) as [[fe ov]|] eqn:Hv;
      [|now destruct (H k (or_introl eq_refl))].
    assert (IH' := fun s => IH s (fun k' Hk' => H k' (or_intror Hk'))).
    destruct fe as [|e fe]; simpl; [apply IH'|].
    destruct (checkpoint cfg (errs ++ e :: fe)) eqn:E; simpl;
      [|discriminate|apply IH'].
    unfold checkpoint in E.
    destruct (is_first cfg && negb (Nat.eqb (List.length (errs ++ e :: fe)) 0));
      discriminate.
Qed.

Lemma validate_body_total :
  no_nullish_items input = true ->
  (forall k v fld, schema_get schema k = Some fld -> no_nullish_items v = true ->
     exists e, vfo k v = Some (Some e)) ->
  exists r, run (validate_body cfg schema vfo input) = Some r.
Proof.
  intros Hn Hvfo. unfold validate_body.
  pose proof (requiredPass_no_throw (map fst schema) [] (fun k Hk => Hk)) as H1.
  destruct (requiredPass cfg schema input (map fst schema) []) as [|r1|errs1];
    simpl; [contradiction|eauto|].
  pose proof (fieldPass_no_throw (js_keys input) (errs1, [])) as H2.
  destruct (fieldPass cfg schema vfo input (js_keys input) (errs1, []))
    as [|r2|[errs2 res]]; simpl; [|eauto|].
  - exfalso. apply H2; [|reflexivity]. intros k _. unfold verdict.
    destruct (js_get_not_nullish input k readable) as (v & Hv). rewrite Hv. simpl.
    destruct (schema_get schema k) as [fld|] eqn:Hfld.
    + destruct (Hvfo k v fld Hfld (js_get_no_nullish _ _ _ Hn Hv)) as (e & ->).
      simpl. destruct e; discriminate.
    + destruct (strictMode cfg); discriminate.
  - destruct (defaultPass_spec schema (map fst schema) res (fun k Hk => Hk))
      as (res' & -> & _).
    simpl. eauto.
Qed.

End NoThrow.

Lemma validateField_total cfg fieldSchema :
  (forall fieldName v, no_nullish_items v = true ->
     exists e, validateField cfg fieldName v fieldSchema = Some e) /\
  (forall sub input,
     fields fieldSchema = Some sub ->
     is_nullish input = false -> no_nullish_items input = true ->
     exists r, validate cfg sub input = Some r).
Proof.
  induction fieldSchema as [fieldSchema IHfields IHitems] using SchemaField_ind.
  assert (Hsub : forall sub input,
             fields fieldSchema = Some sub ->
             is_nullish input = false -> no_nullish_items input = true ->
             exists r, validate cfg sub input = Some r).
  { intros sub input Hf Hr Hn. apply validate_body_total; try assumption.
    intros k v fld Hfld Hv. rewrite validateFieldIn_get, Hfld. simpl.
    apply schema_get_In in Hfld as [(k' & Hfld) | ->];
      [|rewrite validateField_inherited; eauto].
    specialize (IHfields sub Hf). rewrite Forall_forall in IHfields.
    destruct (proj1 (IHfields (k', fld) Hfld) k v Hv) as (e & He).
    simpl in He. rewrite He. eauto. }
  split; [|exact Hsub].
  intros fieldName v Hn. rewrite validateField_eq.
  destruct (is_null v) eqn:Hnull; [destruct (nullable fieldSchema); eauto|].
  destruct (is_undefined v && negb (required fieldSchema)); [eauto|].
  destruct (negb (validateType v fieldSchema)); [eauto|].
  assert (Ho : exists oe, objectErrors cfg fieldName v fieldSchema = Some oe).
  { unfold objectErrors. destruct (fields fieldSchema) as [sub|]; [|eauto].
    destruct (is_object_type (type fieldSchema) && typeof_object v) eqn:E;
      [|eauto].
    apply andb_true_iff in E as [_ E].
    destruct (Hsub sub v eq_refl) as (r & ->); [|assumption|simpl; eauto].
    destruct v; try discriminate; reflexivity. }
  assert (Ha : exists ae, arrayErrors cfg fieldName v fieldSchema = Some ae).
  { unfold arrayErrors. destruct (items fieldSchema) as [itemSchema|]; [|eauto].
    destruct v; eauto.
    destruct (is_array_type (type fieldSchema)); [|eauto].
    apply forEach_total. intros item index Hin.
    simpl in Hn. rewrite forallb_forall in Hn. apply Hn in Hin.
    apply andb_true_iff in Hin as [Hin Hitem].
    apply andb_true_iff in Hin as [Hi1 Hi2].
    apply negb_true_iff in Hi1, Hi2.
    destruct (IHitems itemSchema eq_refl) as [IHf IHs].
    unfold itemErrors. destruct (fields itemSchema) as [sub|]; [|now apply IHf].
    destruct (is_object_type (type itemSchema)); [|now apply IHf].
    destruct (IHs sub item eq_refl) as (r & ->);
      [unfold is_nullish; now rewrite Hi1, Hi2 | assumption | simpl; eauto]. }
  destruct Ho as (oe & ->). destruct Ha as (ae & ->). simpl. eauto.
Qed.

(** X13. [validate] returns a result, without raising, for every input that
    is not [null] or [undefined] and holds no [null] or [undefined] as an
    item of an array, at any depth, whatever the schema and the
    configuration. *)
Theorem validate_total cfg schema input :
  is_nullish input = false ->
  no_nullish_items input = true ->
  exists r, validate cfg schema input = Some r.
Proof.
  intros Hr Hn. apply validate_body_total; try assumption.
  intros k v fld Hfld Hv. rewrite validateFieldIn_get, Hfld. simpl.
  destruct (proj1 (validateField_total cfg fld) k v Hv) as (e & ->). eauto.
Qed.

Lemma validate_total_witness :
  exists r, validate (mkConfig true true First) tags_schema tags_input = Some r.
Proof.
  apply (validate_total (mkConfig true true First) tags_schema tags_input);
    reflexivity.
Defined.

(** ** [strictMode] only restricts *)

Lemma fieldPass_transfer cfg1 cfg2 schema vfo1 vfo2 input names res0 res :
  fieldPass cfg1 schema vfo1 input names ([], res0) = Next ([], res) ->
  (forall k ov, In k names ->
     verdict cfg1 schema vfo1 input k = Some ([], ov) ->
     verdict cfg2 schema vfo2 input k = Some ([], ov)) ->
  fieldPass cfg2 schema vfo2 input names ([], res0) = Next ([], res).
Proof.
  revert res0. induction names as [|k rest IH]; intros res0 H Hv.
  - exact H.
  - rewrite fieldPass_step in *.
    destruct (verdict cfg1 schema vfo1 input k) as [[fe ov]|] eqn:E;
      [|discriminate].
    destruct fe as [|e fe].
    + rewrite (Hv k ov (or_introl eq_refl) E). simpl in *.
      apply IH; [exact H|]. intros k' ov' Hk'. apply Hv. now right.
    + apply bind_Next in H as (errs1 & Hc & H).
      apply checkpoint_Next in Hc as [-> _].
      apply fieldPass_Next in H as (more & Hm & _). discriminate.
Qed.

Section StrictAgainstLax.

Variable t : bool.
Variable mode : ErrorCollectionMode.

Local Abbreviation cfgS := (mkConfig t true mode).
Local Abbreviation cfgL := (mkConfig t false mode).

Lemma validate_body_lax schema vfoS vfoL input r :
  (forall k v, vfoS k v = Some (Some []) -> vfoL k v = Some (Some [])) ->
  run (validate_body cfgS schema vfoS input) = Some r ->
  valid r = true ->
  run (validate_body cfgL schema vfoL input) = Some r.
Proof.
  intros Hvfo H Hvalid.
  apply validate_body_inv in H
    as [(errs & _ & -> & _) | (errs1 & errs2 & res & res' & H1 & H2 & H3 & ->)];
    [discriminate|].
  simpl in Hvalid. apply length_eqb_nil in Hvalid. subst errs2.
  destruct (fieldPass_Next _ _ _ _ _ _ _ _ _ H2) as (more & Hm & _).
  symmetry in Hm. apply app_eq_nil in Hm as [-> _].
  unfold validate_body.
  assert (H1' : requiredPass cfgL schema input (map fst schema) [] = Next []).
  { apply requiredPass_Next in H1 as (more1 & Hm1 & H1).
    symmetry in Hm1. simpl in Hm1. subst more1.
    pose proof (requiredPass_prefix cfgL schema input (map fst schema) [] []) as P.
    rewrite app_nil_r in P. rewrite P; [reflexivity|].
    intros k Hk. destruct (H1 k Hk) as (fld & Hfld & Hr). exists fld.
    split; [assumption|].
    destruct Hr as [Hr | (v & Hv & [Hr | [[] _]])]; [now left | right; eauto]. }
  rewrite H1'. simpl.
  rewrite (fieldPass_transfer _ cfgL _ _ vfoL _ _ _ _ H2).
  - simpl. rewrite H3. reflexivity.
  - intros k ov _. unfold verdict.
    destruct (js_get input k) as [v|]; simpl; [|discriminate].
    destruct (schema_get schema k) as [fld|]; simpl; [|discriminate].
    destruct (vfoS k v) as [[[|e fe]|]|] eqn:E; simpl; try discriminate.
    now rewrite (Hvfo k v E).
Qed.

Lemma validateField_lax fieldSchema :
  (forall fieldName v,
     validateField cfgS fieldName v fieldSchema = Some [] ->
     validateField cfgL fieldName v fieldSchema = Some []) /\
  (forall sub input r,
     fields fieldSchema = Some sub ->
     validate cfgS sub input = Some r -> valid r = true ->
     validate cfgL sub input = Some r).
Proof.
  induction fieldSchema as [fieldSchema IHfields IHitems] using SchemaField_ind.
  assert (Hsub : forall sub input r,
             fields fieldSchema = Some sub ->
             validate cfgS sub input = Some r -> valid r = true ->
             validate cfgL sub input = Some r).
  { intros sub input r Hf. apply validate_body_lax.
    intros k v. rewrite !validateFieldIn_get.
    destruct (schema_get sub k) as [fld|] eqn:Hk; simpl; [|discriminate].
    intros H. injection H as H'.
    apply schema_get_In in Hk as [(k' & Hk) | ->];
      [|rewrite validateField_inherited in *; now rewrite H'].
    specialize (IHfields sub Hf). rewrite Forall_forall in IHfields.
    pose proof (proj1 (IHfields (k', fld) Hk) k v H') as Hl. simpl in Hl.
    now rewrite Hl. }
  split; [|exact Hsub].
  intros fieldName v. rewrite !validateField_eq.
  destruct (is_null v); [auto|].
  destruct (is_undefined v && negb (required fieldSchema)); [auto|].
  destruct (validateType v fieldSchema) eqn:Hty; simpl; [|auto].
  intros H.
  destruct (objectErrors cfgS fieldName v fieldSchema) as [oe|] eqn:Ho;
    simpl in H; [|discriminate].
  destruct (arrayErrors cfgS fieldName v fieldSchema) as [ae|] eqn:Ha;
    simpl in H; [|discriminate].
  inversion H as [Happ]. apply app_eq_nil in Happ as [-> Happ].
  apply app_eq_nil in Happ as [-> Hrc].
  assert (Ho' : objectErrors cfgL fieldName v fieldSchema = Some []).
  { apply (objectErrors_clean _ _ _ _ Hty). intros sub Hto Hf.
    destruct (proj1 (objectErrors_clean _ _ _ _ Hty) Ho sub Hto Hf)
      as (r & Hr & Hv).
    exists r. split; [now apply Hsub | assumption]. }
  assert (Ha' : arrayErrors cfgL fieldName v fieldSchema = Some []).
  { apply (arrayErrors_clean _ _ _ _ Hty). intros itemSchema elems Hta Hit Hl i item Hi.
    pose proof (proj1 (arrayErrors_clean _ _ _ _ Hty) Ha itemSchema elems Hta Hit
                  Hl i item Hi) as Hitem.
    destruct (IHitems itemSchema Hit) as [IHf IHs].
    unfold itemErrors in *. destruct (fields itemSchema) as [sub|]; [|now apply IHf].
    destruct (is_object_type (type itemSchema)); [|now apply IHf].
    destruct (validate cfgS sub item) as [r|] eqn:Hr; simpl in Hitem;
      [|discriminate].
    inversion Hitem as [Hn].
    assert (Hv : valid r = true)
      by now apply (nested_errors_nil (item_path fieldName i) _ _ _ _ Hr).
    rewrite (IHs sub item r eq_refl Hr Hv). simpl. now rewrite Hn. }
  rewrite Ho', Ha'. simpl.
  pose proof (proj2 (ruleChain_nil cfgL fieldName v _)
                (proj1 (ruleChain_nil cfgS fieldName v _) Hrc)) as Hrc'.
  now rewrite Hrc'.
Qed.

End StrictAgainstLax.

(** X14. [strictMode] only restricts: an input that the engine accepts
    with [strictMode] on is accepted with [strictMode] off as well, with the
    same output. *)
Theorem strict_accepts_then_lax_accepts t mode schema input r :
  validate (mkConfig t true mode) schema input = Some r ->
  valid r = true ->
  validate (mkConfig t false mode) schema input = Some r.
Proof.
  apply validate_body_lax. intros k v. rewrite !validateFieldIn_get.
  destruct (schema_get schema k) as [fld|]; simpl; [|discriminate].
  intros H. injection H as H'.
  now rewrite (proj1 (validateField_lax t mode fld) k v H').
Qed.

Lemma strict_accepts_then_lax_accepts_witness :
  validate (mkConfig true false All) user_schema
    (VObj [("user", VObj [("profile", VObj [("firstName", VStr "Ann")])])]) =
  Some (mkResult true []
          (VObj [("user", VObj [("profile", VObj [("firstName", VStr "Ann")])])])).
Proof.
  apply (strict_accepts_then_lax_accepts true All user_schema
           (VObj [("user", VObj [("profile", VObj [("firstName", VStr "Ann")])])])
           (mkResult true []
              (VObj [("user",
                      VObj [("profile", VObj [("firstName", VStr "Ann")])])])));
    reflexivity.
Defined.

(** ** rules.array.unique *)

Lemma key_eqb_eq a b : key_eqb a b = true <-> a = b.
Proof.
  destruct a as [x|], b as [y|]; simpl; split; intros H;
    try discriminate; try reflexivity.
  - apply String.eqb_eq in H. now subst.
  - inversion H. apply String.eqb_refl.
Qed.

Lemma filter_keeps_all {A : Type} (f : A -> bool) l :
  List.length (filter f l) = List.length l -> forall y, In y l -> f y = true.
Proof.
  induction l as [|x rest IH]; simpl; [intros _ ? []|].
  pose proof (filter_length_le f rest) as Hle.
  destruct (f x) eqn:E; simpl; intros H y [<-|Hy]; auto; try lia;
    apply IH; (lia || assumption).
Qed.

Lemma set_of_length_le l : List.length (set_of l) <= List.length l.
Proof.
  induction l as [|x rest IH]; simpl; [lia|].
  pose proof (filter_length_le (fun y => negb (key_eqb x y)) (set_of rest)). lia.
Qed.

Lemma set_of_In l x : In x l -> In x (set_of l).
Proof.
  induction l as [|y rest IH]; simpl; [intros []|].
  intros [->|H]; [now left|].
  destruct (key_eqb y x) eqn:E.
  - apply key_eqb_eq in E. now left.
  - right. apply filter_In. split; [now apply IH | now rewrite E].
Qed.

Lemma set_of_full l :
  List.length (set_of l) = List.length l <-> NoDup l.
Proof.
  induction l as [|x rest IH]; simpl.
  - split; [constructor | reflexivity].
  - pose proof (set_of_length_le rest) as Hle.
    pose proof (filter_length_le (fun y => negb (key_eqb x y)) (set_of rest)) as Hf.
    split.
    + intros H. constructor.
      * intros Hin. apply set_of_In in Hin.
        assert (Hall := filter_keeps_all (fun y => negb (key_eqb x y))
                          (set_of rest) ltac:(lia) x Hin).
        simpl in Hall. rewrite (proj2 (key_eqb_eq x x) eq_refl) in Hall.
        discriminate.
      * apply IH. lia.
    + intros H. inversion H as [|? ? Hnot Hnd]. subst. f_equal.
      apply IH in Hnd.
      assert (Hid : filter (fun y => negb (key_eqb x y)) (set_of rest) = set_of rest).
      { apply forallb_filter_id, forallb_forall. intros y Hy.
        apply negb_true_iff. destruct (key_eqb x y) eqn:E; [|reflexivity].
        apply key_eqb_eq in E. subst y. exfalso. apply Hnot.
        clear - Hy. induction rest as [|z rest IH]; simpl in Hy; [destruct Hy|].
        destruct Hy as [->|Hy]; [now left|].
        apply filter_In in Hy as [Hy _]. right. now apply IH. }
      now rewrite Hid.
Qed.

(** X15. [unique()] without a key function accepts exactly the arrays whose
    items have pairwise different [JSON.stringify] renderings; so it rejects
    an array that holds both [null] and [NaN], or [undefined] twice, and
    accepts every array of at most one item. *)
Theorem unique_compares_renderings v :
  (rule_validate rules.array_unique v = true <->
   exists l, v = VArr l /\ NoDup (map stringify l)) /\
  (forall l, In VNull l -> In VNaN l ->
     rule_validate rules.array_unique (VArr l) = false) /\
  (forall l, (List.length l <= 1)%nat ->
     rule_validate rules.array_unique (VArr l) = true).
Proof.
  assert (Hiff : forall l,
             rule_validate rules.array_unique (VArr l) = true <->
             NoDup (map stringify l)).
  { intros l. simpl. rewrite Nat.eqb_eq. apply set_of_full. }
  split; [|split].
  - destruct v; try (split; [discriminate | intros (l & H & _); discriminate]).
    rewrite Hiff. split; [eauto|]. intros (l & H & Hnd). inversion H. now subst.
  - intros l Hnull Hnan.
    destruct (rule_validate rules.array_unique (VArr l)) eqn:E; [|reflexivity].
    apply Hiff in E. exfalso.
    apply in_split in Hnull as (a & b & ->).
    rewrite map_app in E. simpl in E. apply NoDup_remove_2 in E. apply E.
    rewrite <- map_app. apply in_app_or in Hnan as [H|[H|H]];
      [|discriminate|];
      change (Some "null") with (stringify VNaN); apply in_map, in_or_app; auto.
  - intros l Hlen. apply Hiff.
    destruct l as [|x [|y rest]]; simpl in *; try lia; repeat constructor; auto.
Qed.

Lemma unescape_escape_char c x :
  unescape_char (escape_char c ++ x) = Some (c, x).
Proof.
  destruct c as [b0 b1 b2 b3 b4 b5 b6 b7].
  destruct b0, b1, b2, b3, b4, b5, b6, b7; reflexivity.
Qed.

Lemma escape_inj s1 s2 :
  (escape s1 ++ dquote = escape s2 ++ dquote)%string -> s1 = s2.
Proof.
  revert s2. induction s1 as [|c1 s1 IH]; intros [|c2 s2]; simpl; intros H.
  - reflexivity.
  - apply (f_equal unescape_char) in H.
    rewrite string_app_assoc, unescape_escape_char in H.
    inversion H as [[Hc Ht]]. destruct (escape s2); discriminate.
  - apply (f_equal unescape_char) in H.
    rewrite string_app_assoc, unescape_escape_char in H.
    inversion H as [[Hc Ht]]. destruct (escape s1); discriminate.
  - apply (f_equal unescape_char) in H.
    rewrite !string_app_assoc, !unescape_escape_char in H.
    inversion H as [[Hc Ht]]. f_equal. now apply IH.
Qed.

Lemma to_int_not_nil z : Z.to_int z <> Decimal.Pos Decimal.Nil /\
                         Z.to_int z <> Decimal.Neg Decimal.Nil.
Proof.
  destruct z; simpl; split; try discriminate; intros H; inversion H as [H'];
    now apply Unsigned.to_uint_nonnil in H'.
Qed.

Lemma string_of_Z_parses z :
  NilZero.int_of_string (string_of_Z z) = Some (Z.to_int z).
Proof.
  destruct (to_int_not_nil z) as [H1 H2]. now apply NilZero.isi.
Qed.

Lemma string_of_Z_inj a b : string_of_Z a = string_of_Z b -> a = b.
Proof.
  intros H. apply (f_equal NilZero.int_of_string) in H.
  rewrite !string_of_Z_parses in H. inversion H as [H'].
  now apply DecimalZ.to_int_inj.
Qed.

Lemma quote_not_number s z : quote s <> string_of_Z z.
Proof.
  intros H. apply (f_equal NilZero.int_of_string) in H.
  rewrite string_of_Z_parses in H. unfold quote in H. simpl in H.
  destruct (NilEmpty.uint_of_string (escape s ++ dquote)); discriminate.
Qed.

Lemma stringify_scalar_inj x y :
  is_scalar x = true -> is_scalar y = true ->
  stringify x = stringify y -> x = y.
Proof.
  destruct x, y; try discriminate; simpl; intros _ _ H; injection H as H; pose proof H as H'.
  - destruct b, b0; try reflexivity; discriminate.
  - exfalso. apply (f_equal NilZero.int_of_string) in H'.
    rewrite string_of_Z_parses in H'. destruct b; discriminate.
  - exfalso. destruct b; discriminate.
  - exfalso. apply (f_equal NilZero.int_of_string) in H'.
    rewrite string_of_Z_parses in H'. destruct b; discriminate.
  - f_equal. now apply string_of_Z_inj.
  - exfalso. exact (quote_not_number _ _ (eq_sym H)).
  - exfalso. destruct b; discriminate.
  - exfalso. exact (quote_not_number _ _ H).
  - f_equal. now apply escape_inj.
Qed.

Lemma NoDup_map_on {A B : Type} (f : A -> B) l :
  (forall x y, In x l -> In y l -> f x = f y -> x = y) ->
  (NoDup (map f l) <-> NoDup l).
Proof.
  intros Hinj. split; [apply NoDup_map_inv|].
  induction l as [|x rest IH]; simpl; intros H; [constructor|].
  inversion H as [|? ? Hnot Hnd]. subst. constructor.
  - intros Hin. apply in_map_iff in Hin as (y & Hy & Hin). apply Hnot.
    rewrite (Hinj x y); auto; [now left | now right].
  - apply IH; [|assumption]. intros a b Ha Hb. apply Hinj; now right.
Qed.

(** X16. On an array of strings, integers and booleans, [unique()] accepts
    exactly the arrays in which no item occurs twice: on these values the
    comparison by [JSON.stringify] is the comparison of the values. *)
Theorem unique_on_scalars l :
  (forall x, In x l -> is_scalar x = true) ->
  (rule_validate rules.array_unique (VArr l) = true <-> NoDup l).
Proof.
  intros Hs. simpl. rewrite Nat.eqb_eq, set_of_full.
  apply NoDup_map_on. intros x y Hx Hy. apply stringify_scalar_inj; auto.
Qed.

Lemma unique_on_scalars_witness :
  rule_validate rules.array_unique (VArr [VNum 1; VStr "1"; VBool true; VStr "true"])
  = true.
Proof.
  apply (unique_on_scalars [VNum 1; VStr "1"; VBool true; VStr "true"]).
  - intros x [<-|[<-|[<-|[<-|[]]]]]; reflexivity.
  - repeat constructor; simpl; intuition discriminate.
Defined.

(** ** The bound rules of the catalogue *)

(** X17. The length and bound rules of the catalogue check the kind of the
    value themselves: each rejects every value that is not a string, a
    number other than [NaN], or an array, as the rule requires, [null] and
    [undefined] included; and a lower bound and an upper bound of the same
    kind are passed together only when the lower bound is not above the
    upper one. *)
Theorem bound_rules_guard v a b :
  (typeof_string v = false ->
   rule_validate (rules.string_min a) v = false /\
   rule_validate (rules.string_max a) v = false) /\
  (typeof_number v && negb (isNaN v) = false ->
   rule_validate (rules.number_min a) v = false /\
   rule_validate (rules.number_max a) v = false /\
   rule_validate rules_more.number_positive v = false /\
   rule_validate rules_more.number_negative v = false /\
   rule_validate rules_more.number_integer v = false) /\
  (isArray v = false ->
   rule_validate (rules.array_min a) v = false /\
   rule_validate (rules.array_max a) v = false /\
   rule_validate rules.array_unique v = false) /\
  (rule_validate (rules.string_min a) v = true ->
   rule_validate (rules.string_max b) v = true -> (a <= b)%Z) /\
  (rule_validate (rules.number_min a) v = true ->
   rule_validate (rules.number_max b) v = true -> (a <= b)%Z) /\
  (rule_validate (rules.array_min a) v = true ->
   rule_validate (rules.array_max b) v = true -> (a <= b)%Z) /\
  (rule_validate rules_more.number_positive v = true ->
   rule_validate rules_more.number_negative v = false).
Proof.
  repeat split; destruct v; simpl; try discriminate; try reflexivity;
    try (intros H1 H2; apply Z.geb_le in H1; apply Z.leb_le in H2; lia);
    intros H; apply Z.gtb_lt in H; apply Z.ltb_ge; lia.
Qed.

Lemma bound_rules_guard_witness :
  rule_validate (rules.number_min 18) VNaN = false /\
  rule_validate (rules.number_max 18) VNaN = false /\
  rule_validate rules_more.number_positive VNaN = false /\
  rule_validate rules_more.number_negative VNaN = false /\
  rule_validate rules_more.number_integer VNaN = false.
Proof.
  apply (bound_rules_guard VNaN 18 18). reflexivity.
Defined.

(** ** Validation without transforms and defaults *)

Lemma obj_set_fresh res k (v : value) :
  ~ In k (map fst res) -> obj_set res k v = res ++ [(k, v)].
Proof.
  induction res as [|[k0 w] rest IH]; simpl; intros H; [reflexivity|].
  destruct (String.eqb k0 k) eqn:E.
  - apply String.eqb_eq in E. tauto.
  - rewrite IH by tauto. reflexivity.
Qed.

Lemma fieldPass_copies cfg schema vfo o done todo :
  NoDup (map fst (done ++ todo)) ->
  (forall k v, In (k, v) todo ->
     verdict cfg schema vfo (VObj o) k = Some ([], Some v)) ->
  fieldPass cfg schema vfo (VObj o) (map fst todo) ([], done) =
  Next ([], done ++ todo).
Proof.
  revert done. induction todo as [|[k v] rest IH]; intros done Hnd Hv.
  - simpl. now rewrite app_nil_r.
  - simpl map. rewrite fieldPass_step, (Hv k v (or_introl eq_refl)). simpl.
    rewrite obj_set_fresh.
    + replace (done ++ (k, v) :: rest) with ((done ++ [(k, v)]) ++ rest)
        by (now rewrite <- app_assoc).
      apply IH.
      * now rewrite <- app_assoc.
      * intros k' v' H'. apply Hv. now right.
    + rewrite map_app in Hnd. simpl in Hnd. apply NoDup_remove_2 in Hnd.
      intros Hin. apply Hnd. apply in_or_app. now left.
Qed.

Lemma defaultPass_idle schema names res :
  (forall k, In k names -> exists fld, assoc schema k = Some fld /\
                                       has_default fld = false) ->
  defaultPass schema names res = Next res.
Proof.
  induction names as [|k rest IH]; intros H; simpl; [reflexivity|].
  destruct (H k (or_introl eq_refl)) as (fld & Hfld & Hd).
  rewrite (schema_get_own _ _ _ Hfld). simpl.
  rewrite Hd, andb_false_r. apply IH. intros k' Hk'. apply H. now right.
Qed.

Lemma assoc_NoDup {A : Type} (l : list (string * A)) k a :
  NoDup (map fst l) -> In (k, a) l -> assoc l k = Some a.
Proof.
  induction l as [|[k0 a0] rest IH]; simpl; intros Hnd Hin; [destruct Hin|].
  inversion Hnd as [|? ? Hnot Hnd']. subst.
  destruct Hin as [Heq|Hin].
  - inversion Heq. subst. now rewrite String.eqb_refl.
  - destruct (String.eqb k0 k) eqn:E; [|now apply IH].
    apply String.eqb_eq in E. subst k0. exfalso. apply Hnot.
    apply in_map_iff. now exists (k, a).
Qed.



(** ** [strictMode] below the top level *)

(** X19. [strictMode] is handed down to the nested validators: in "all"
    mode with [strictMode] on, a key of a nested object under which the
    nested [fields] give nothing (no field of their own, and no member
    inherited from [Object.prototype]) is reported by [validateField] of the
    enclosing field as "Unknown field '<key>'" under the path
    [<fieldName>.<key>], with the value it has in the nested object. *)
Theorem strict_mode_reaches_nested cfg fieldName o fieldSchema sub k errs :
  strictMode cfg = true ->
  is_first cfg = false ->
  type fieldSchema = TObject ->
  fields fieldSchema = Some sub ->
  In k (map fst o) ->
  schema_get sub k = None ->
  validateField cfg fieldName (VObj o) fieldSchema = Some errs ->
  In (mkError (fieldName ++ "." ++ k) ("Unknown field '" ++ k ++ "'") (obj_get o k))
     errs.
Proof.
  intros Hstrict Hall Hty Hf Hk Hs H.
  rewrite validateField_eq in H. simpl in H. unfold validateType in H.
  rewrite Hty in H. simpl in H. unfold objectErrors in H.
  rewrite Hf, Hty in H. simpl in H.
  destruct (validate cfg sub (VObj o)) as [nr|] eqn:Hn; simpl in H; [|discriminate].
  destruct (arrayErrors cfg fieldName (VObj o) fieldSchema) as [ae|];
    simpl in H; [|discriminate].
  inversion H. subst errs. apply in_or_app. left.
  rewrite (nested_errors_map _ _ _ _ _ Hn).
  change (mkError (fieldName ++ "." ++ k) ("Unknown field '" ++ k ++ "'")
            (obj_get o k))
    with (prefix_error fieldName (unknown_error k (obj_get o k))).
  apply in_map.
  apply validate_inv in Hn
    as [(e & _ & _ & Hfirst) | (errs1 & errs2 & res & res' & _ & H2 & _ & ->)];
    [congruence|].
  apply fieldPass_Next in H2 as (more & -> & _ & H2).
  destruct (H2 k Hk) as (fe & ov & Hvd & Hincl & _).
  unfold verdict in Hvd. simpl js_get in Hvd. cbn [obind] in Hvd.
  rewrite Hs, Hstrict in Hvd.
  inversion Hvd. subst fe. simpl. apply in_or_app. right. apply Hincl. now left.
Qed.

Lemma strict_mode_reaches_nested_witness :
  In (mkError "user.age" "Unknown field 'age'" (VNum 3))
     [mkError "user.age" "Unknown field 'age'" (VNum 3)].
Proof.
  apply (strict_mode_reaches_nested (mkConfig true true All) "user"
           [("name", VStr "x"); ("age", VNum 3)]
           (mkField TObject false false [] None None
              (Some [("name", plain TString)]) None)
           [("name", plain TString)] "age");
    try reflexivity.
  right. now left.
Defined.
